(** * Representative selection for quantifier instantiation

    A shallow embedding of [theory/quantifiers/equality_query.cpp]
    (class [EqualityQueryQuantifiersEngine]) together with the properties
    its specification states about it.

    Terms are hash-consed in the solver: two [Node] handles are equal exactly
    when they denote the same kind, payload and children.  A structural
    inductive type with Leibniz equality therefore plays the role of the
    handle, and a term shared by several parents is simply a repeated
    subtree. *)

From Stdlib Require Import ZArith List Bool Lia.
From stdpp Require Import base option list countable gmap fin_maps.

Set Default Proof Using "Type".
Open Scope Z_scope.

(** ** Terms and types *)

(** The kind enumeration is generated code; this file only ever inspects
    [FORALL], every other kind is kept apart by its number. *)
Inductive Kind : Type :=
  | FORALL
  | OTHER_KIND (k : nat).

(** A non-null term: kind, payload (operator, constant value or variable
    identity) and children. *)
#[warnings="-register-all"]
Inductive Node : Type :=
  | mkNode (k : Kind) (id : nat) (children : list Node).

(** A type is an opaque, comparable handle. *)
Inductive TypeNode : Type :=
  | mkTypeNode (id : nat).

Definition getKind (n : Node) : Kind :=
  match n with mkNode k _ _ => k end.

Definition getChildren (n : Node) : list Node :=
  match n with mkNode _ _ cs => cs end.

Definition getNumChildren (n : Node) : nat := length (getChildren n).

Definition isForall (k : Kind) : bool :=
  match k with FORALL => true | OTHER_KIND _ => false end.

(** Induction over terms that reaches the children. *)
Fixpoint Node_ind' (P : Node -> Prop)
    (step : forall k id cs, Forall P cs -> P (mkNode k id cs))
    (n : Node) {struct n} : P n :=
  match n with
  | mkNode k id cs =>
      step k id cs
        ((fix all (l : list Node) : Forall P l :=
            match l with
            | [] => List.Forall_nil P
            | c :: l' => List.Forall_cons P c l' (Node_ind' P step c) (all l')
            end) cs)
  end.

#[export] Instance Kind_eq_dec : EqDecision Kind.
Proof. solve_decision. Defined.

#[export] Instance TypeNode_eq_dec : EqDecision TypeNode.
Proof. solve_decision. Defined.

Fixpoint Node_eqb (a b : Node) {struct a} : bool :=
  match a, b with
  | mkNode k1 i1 cs1, mkNode k2 i2 cs2 =>
      bool_decide (k1 = k2) && bool_decide (i1 = i2) &&
      (fix eqs (l1 l2 : list Node) {struct l1} : bool :=
         match l1, l2 with
         | [], [] => true
         | x :: l1', y :: l2' => Node_eqb x y && eqs l1' l2'
         | _, _ => false
         end) cs1 cs2
  end.

Lemma Node_eqb_eq (a b : Node) : Node_eqb a b = true <-> a = b.
Proof.
  revert b. induction a as [k id cs IH] using Node_ind'.
  intros [k2 id2 cs2]. simpl.
  rewrite !andb_true_iff, !bool_decide_eq_true.
  split.
  - intros [[-> ->] Hcs]. f_equal.
    revert cs2 Hcs. induction IH as [|c cs Hc _ IHcs]; intros [|d ds] Hcs;
      try discriminate; [done|].
    apply andb_true_iff in Hcs as [H1 H2].
    f_equal; [by apply Hc | by apply IHcs].
  - intros [= -> -> <-]. split; [done|].
    induction IH as [|c cs Hc _ IHcs]; [done|].
    apply andb_true_iff. split; [by apply Hc | done].
Qed.

#[export] Instance Node_eq_dec : EqDecision Node.
Proof.
  intros a b. destruct (Node_eqb a b) eqn:E.
  - left. by apply Node_eqb_eq.
  - right. intros H. apply Node_eqb_eq in H. congruence.
Defined.

Definition Kind_code (k : Kind) : option nat :=
  match k with FORALL => None | OTHER_KIND n => Some n end.

Definition Kind_decode (c : option nat) : Kind :=
  match c with None => FORALL | Some n => OTHER_KIND n end.

#[export] Instance Kind_countable : Countable Kind.
Proof. apply (inj_countable' Kind_code Kind_decode). by intros []. Defined.

#[export] Instance TypeNode_countable : Countable TypeNode.
Proof.
  apply (inj_countable' (fun t => match t with mkTypeNode i => i end) mkTypeNode).
  by intros [].
Defined.

Fixpoint Node_to_tree (n : Node) : gen_tree (Kind * nat) :=
  match n with
  | mkNode k id cs => GenNode 0 (GenLeaf (k, id) :: map Node_to_tree cs)
  end.

Fixpoint Node_of_tree (t : gen_tree (Kind * nat)) : Node :=
  match t with
  | GenNode _ (GenLeaf (k, id) :: ts) => mkNode k id (map Node_of_tree ts)
  | _ => mkNode FORALL 0 []
  end.

Lemma Node_of_to_tree (n : Node) : Node_of_tree (Node_to_tree n) = n.
Proof.
  induction n as [k id cs IH] using Node_ind'. simpl. f_equal.
  induction IH as [|c cs Hc _ IHcs]; [done|]. simpl. by rewrite Hc, IHcs.
Qed.

#[export] Instance Node_countable : Countable Node.
Proof. exact (inj_countable' Node_to_tree Node_of_tree Node_of_to_tree). Defined.

(** ** Collaborators

    Everything the class only consumes: configuration switches, the
    equality engine, the term database, the model and the facts attached to
    terms (types, attributes).  They are read-only for this file, so each is
    a record of the queries that are made. *)

Module options.

Inductive QuantRepMode : Type := EE | FIRST | DEPTH.

#[global] Instance QuantRepMode_eq_dec : EqDecision QuantRepMode.
Proof. solve_decision. Defined.

Record Options : Type := mkOptions {
  finiteModelFind : bool;
  quantRepMode : QuantRepMode;
  cbqi : bool;
  lteRestrictInstClosure : bool;
  instMaxLevel : Z;
  instLevelInputOnly : bool
}.

End options.

Module uf.

(** [EqClassIterator rep] lists what the iterator built from [rep] yields
    until [isFinished]. *)
Record EqualityEngine : Type := mkEqualityEngine {
  hasTerm : Node -> bool;
  getRepresentative : Node -> Node;
  areEqual : Node -> Node -> bool;
  areDisequal : Node -> Node -> bool -> bool;
  EqClassIterator : Node -> list Node
}.

End uf.

Record TermDb : Type := mkTermDb {
  isInstClosure : Node -> bool;
  hasTermCurrent : Node -> bool -> bool
}.

(** [getModel] is [None] for a null model pointer; otherwise it is the
    query [getRepSet()->getTermForRepresentative], whose null answer is
    [None]. *)
Record QuantifiersEngine : Type := mkQuantifiersEngine {
  getActiveEqualityEngine : uf.EqualityEngine;
  getModel : option (Node -> option Node);
  getTermDatabase : TermDb
}.

(** Facts about terms and types that are computed elsewhere.
    [InstLevelAttribute n] is [None] when [n.hasAttribute] is false and the
    attribute's value otherwise, an unsigned 64-bit number (from 0 up to
    2^64 - 1).  [getTermDepth] hands back an [int]. *)
Record NodeManager : Type := mkNodeManager {
  getType : Node -> TypeNode;
  isSubtypeOf : TypeNode -> TypeNode -> bool;
  isSort : TypeNode -> bool;
  isConst : Node -> bool;
  hasInstConstAttr : Node -> bool;
  containsUninterpretedConstant : Node -> bool;
  InstLevelAttribute : Node -> option Z;
  getTermDepth : Node -> Z
}.

(** The surroundings of one [EqualityQueryQuantifiersEngine]: the option
    values in force, the term facts and its [d_qe]. *)
Record Env : Type := mkEnv {
  opts : options.Options;
  nm : NodeManager;
  d_qe : QuantifiersEngine
}.

(** ** Outcomes *)

(** Modelled from the spec: the [Assert] macro is declared outside this
    file; the specification (section 7) has a violated invariant halt the
    implementation with a diagnostic, which is the outcome
    [AssertionFailure]. *)
Inductive Res (A : Type) : Type :=
  | Ok (a : A)
  | AssertionFailure.

Arguments Ok {A} a.
Arguments AssertionFailure {A}.

(** The outcome seen from outside: the value, if there is one. *)
#[export] Instance Res_fmap : FMap Res := fun A B f m =>
  match m with
  | Ok a => Ok (f a)
  | AssertionFailure => AssertionFailure
  end.

#[export] Instance Res_ret : MRet Res := fun A a => Ok a.

#[export] Instance Res_bind : MBind Res := fun A B f m =>
  match m with
  | Ok a => f a
  | AssertionFailure => AssertionFailure
  end.

Definition Assert (b : bool) : Res unit :=
  if b then Ok tt else AssertionFailure.

(** [n[i]].  The accessor is declared outside this file; an index that
    names no child is taken as a failed assertion. *)
Definition child (n : Node) (i : Z) : Res Node :=
  if i <? 0 then AssertionFailure
  else match getChildren n !! Z.to_nat i with
       | Some c => Ok c
       | None => AssertionFailure
       end.

(** ** Machine integers *)

(** [int] is 32 bits wide.  [toInt z] is the [int] that a conversion of
    [z] produces, and the [int] that arithmetic on [int]s leaves when the
    exact result is [z]: the value wraps around modulo 2^32. *)
Definition INT_MAX : Z := 2147483647.

Definition toInt (z : Z) : Z := (z + 2147483648) mod 4294967296 - 2147483648.

(** ** The mutable members *)

(** [d_reset_count] and the generations in [d_rep_score] are [int]s. *)
Record State : Type := mkState {
  d_int_rep : gmap TypeNode (gmap Node Node);
  d_rep_score : gmap Node Z;
  d_reset_count : Z
}.

(** The constructor: empty tables, [d_reset_count(0)]. *)
Definition initial : State :=
  {| d_int_rep := ∅; d_rep_score := ∅; d_reset_count := 0 |}.

(** [Theory::Effort], unused by [reset]. *)
Inductive Effort : Type :=
  | EFFORT_STANDARD
  | EFFORT_FULL
  | EFFORT_LAST_CALL.

(** ** The member functions *)

Definition getEngine (E : Env) : uf.EqualityEngine :=
  getActiveEqualityEngine (d_qe E).

Definition reset (e : Effort) (s : State) : bool * State :=
  (true,
   {| d_int_rep := ∅;
      d_rep_score := d_rep_score s;
      d_reset_count := toInt (d_reset_count s + 1) |}).

Definition hasTerm (E : Env) (a : Node) : bool :=
  uf.hasTerm (getEngine E) a.

Definition getRepresentative (E : Env) (a : Node) : Node :=
  let ee := getEngine E in
  if uf.hasTerm ee a then uf.getRepresentative ee a else a.

Definition areEqual (E : Env) (a b : Node) : bool :=
  if bool_decide (a = b) then true
  else
    let ee := getEngine E in
    if uf.hasTerm ee a && uf.hasTerm ee b then uf.areEqual ee a b
    else false.

Definition areDisequal (E : Env) (a b : Node) : bool :=
  if bool_decide (a = b) then false
  else
    let ee := getEngine E in
    if uf.hasTerm ee a && uf.hasTerm ee b then uf.areDisequal ee a b false
    else isConst (nm E) a && isConst (nm E) b.

(** [eqc] is the vector the caller passes in; members are appended. *)
Definition getEquivalenceClass (E : Env) (a : Node) (eqc : list Node)
  : Res (list Node) :=
  let ee := getEngine E in
  let eqc :=
    if uf.hasTerm ee a
    then eqc ++ uf.EqClassIterator ee (uf.getRepresentative ee a)
    else eqc ++ [a] in
  Assert (bool_decide (a ∈ eqc)) ;;
  Ok eqc.

(** The loop of [getInstance] over the children: the first non-null
    answer of [visit] ends it. *)
Definition firstInstance
    (visit : Node -> gmap Node (option Node) ->
             option Node * gmap Node (option Node))
  : list Node -> gmap Node (option Node) ->
    option Node * gmap Node (option Node) :=
  fix children (cs : list Node) (cache : gmap Node (option Node)) {struct cs} :=
    match cs with
    | [] => (None, cache)
    | c :: cs' =>
        let '(nn, cache) := visit c cache in
        match nn with
        | Some _ => (nn, cache)
        | None => children cs' cache
        end
    end.

(** The result is a possibly null [Node]; [cache] is the memo table, in
    which a stored [None] is a stored null. *)
Fixpoint getInstance (n : Node) (eqc : list Node)
    (cache : gmap Node (option Node)) {struct n}
  : option Node * gmap Node (option Node) :=
  match cache !! n with
  | Some v => (v, cache)
  | None =>
      let '(nn, cache) :=
        match n with
        | mkNode _ _ cs =>
            firstInstance (fun c => getInstance c eqc) cs cache
        end in
      match nn with
      | Some _ => (nn, <[n := nn]> cache)
      | None =>
          if bool_decide (n ∈ eqc)
          then (Some n, <[n := Some n]> cache)
          else (None, <[n := None]> cache)
      end
  end.

(** -2 : invalid, -1 : undesired, otherwise : smaller the score, the better *)
Definition getRepScore (E : Env) (s : State)
    (n : Node) (q : option Node) (index : Z) (v_tn : TypeNode) : Res Z :=
  let o := opts E in
  if options.cbqi o && hasInstConstAttr (nm E) n then Ok (-2)
  else if negb (isSubtypeOf (nm E) (getType (nm E) n) v_tn) then Ok (-2)
  else if options.lteRestrictInstClosure o &&
          (negb (isInstClosure (getTermDatabase (d_qe E)) n) ||
           negb (hasTermCurrent (getTermDatabase (d_qe E)) n false))
  then Ok (-1)
  else if negb (options.instMaxLevel o =? -1) then
    match InstLevelAttribute (nm E) n with
    | Some level => Ok (toInt level)
    | None => Ok (if options.instLevelInputOnly o then -1 else 0)
    end
  else
    match options.quantRepMode o with
    | options.FIRST =>
        Ok match d_rep_score s !! n with
           | None => -1
           | Some g => g
           end
    | mode =>
        Assert (bool_decide (mode = options.DEPTH)) ;;
        Ok (getTermDepth (nm E) n)
    end.

(** Lines 95-113 of [getInternalRepresentative]: map back from values
    assigned by model, if any. *)
Definition mapFromModel (E : Env) (r : Node) : Res Node :=
  if options.finiteModelFind (opts E) then
    if isConst (nm E) r && containsUninterpretedConstant (nm E) r then
      match getModel (d_qe E) with
      | Some getTermForRepresentative =>
          match getTermForRepresentative r with
          | Some tr => Ok (getRepresentative E tr)
          | None =>
              if isSort (nm E) (getType (nm E) r)
              then Assert false ;; Ok r
              else Ok r
          end
      | None => Ok r
      end
    else Ok r
  else Ok r.

(** Line 120: [q.isNull() ? a.getType() : q[0][index].getType()]. *)
Definition variableType (E : Env) (a : Node) (q : option Node) (index : Z)
  : Res TypeNode :=
  match q with
  | None => Ok (getType (nm E) a)
  | Some qn =>
      vars ← child qn 0;
      v ← child vars index;
      Ok (getType (nm E) v)
  end.

(** Lines 149-158: the loop over [eqc], from position [i] on, with the
    current [r_best] (possibly null) and [r_best_score]. *)
Fixpoint selectLoop (score : Node -> Res Z) (eqc : list Node)
    (r_best : option Node) (r_best_score : Z) {struct eqc}
  : Res (option Node * Z) :=
  match eqc with
  | [] => Ok (r_best, r_best_score)
  | n :: rest =>
      sc ← score n;
      if negb (sc =? -2) &&
         (bool_decide (r_best = None) ||
          ((0 <=? sc) && ((r_best_score <? 0) || (sc <? r_best_score))))
      then selectLoop score rest (Some n) sc
      else selectLoop score rest r_best r_best_score
  end.

(** Lines 166-172, once [r_best] is known to be a term: record the first
    choice of [r_best] in [d_rep_score] unless it has an entry, then
    [v_int_rep[r] = r_best]. *)
Definition storeChoice (v_tn : TypeNode) (r r_best : Node) (s : State)
  : State :=
  {| d_int_rep :=
       <[v_tn := <[r := r_best]> (default ∅ (d_int_rep s !! v_tn))]>
         (d_int_rep s);
     d_rep_score :=
       match d_rep_score s !! r_best with
       | None => <[r_best := d_reset_count s]> (d_rep_score s)
       | Some _ => d_rep_score s
       end;
     d_reset_count := d_reset_count s |}.

(** Lines 129-177: the cache-miss branch, for the representative [r], the
    variable type [v_tn] and the state in which [d_int_rep[v_tn]] exists. *)
Definition findBestSelection (E : Env) (a : Node) (q : option Node)
    (index : Z) (r : Node) (v_tn : TypeNode) (s : State)
  : Res (Node * State) :=
  eqc ← getEquivalenceClass E r [];
  '(r_best, r_best_score) ←
    selectLoop (fun n => getRepScore E s n q index v_tn) eqc None (-1);
  let r_best := default r r_best in
  (* now, make sure that no other member of the class is an instance *)
  match (getInstance r_best eqc ∅).1 with
  | None =>
      (* a null [r_best] has no type to ask for *)
      AssertionFailure
  | Some r_best =>
      Assert (isSubtypeOf (nm E) (getType (nm E) r_best) v_tn) ;;
      Ok (r_best, storeChoice v_tn r r_best s)
  end.

(** [d_int_rep[v_tn]]: the subscript creates an empty table when the key
    is new. *)
Definition touch (v_tn : TypeNode) (s : State) : State :=
  match d_int_rep s !! v_tn with
  | Some _ => s
  | None =>
      {| d_int_rep := <[v_tn := ∅]> (d_int_rep s);
         d_rep_score := d_rep_score s;
         d_reset_count := d_reset_count s |}
  end.

(** Lines 114-179: what happens to the representative [r] once it is
    settled. *)
Definition lookupOrSelect (E : Env) (a : Node) (q : option Node)
    (index : Z) (r : Node) (s : State) : Res (Node * State) :=
  match options.quantRepMode (opts E) with
  | options.EE => Ok (r, s)
  | _ =>
      v_tn ← variableType E a q index;
      let s := touch v_tn s in
      match default ∅ (d_int_rep s !! v_tn) !! r with
      | Some itir => Ok (itir, s)
      | None => findBestSelection E a q index r v_tn s
      end
  end.

(** [Assert(q.isNull() || q.getKind() == FORALL)]. *)
Definition quantifierOk (q : option Node) : bool :=
  match q with
  | None => true
  | Some qn => isForall (getKind qn)
  end.

Definition getInternalRepresentative (E : Env) (a : Node) (q : option Node)
    (index : Z) (s : State) : Res (Node * State) :=
  Assert (quantifierOk q) ;;
  r ← mapFromModel E (getRepresentative E a);
  lookupOrSelect E a q index r s.

(** A session: the two entry points the instantiation engine uses, called
    in any order while the surroundings evolve from call to call. *)
Inductive Call : Type :=
  | CallReset (e : Effort)
  | CallGetInternalRepresentative (E : Env) (a : Node) (q : option Node)
      (index : Z).

Fixpoint run (calls : list Call) (s : State) {struct calls} : Res State :=
  match calls with
  | [] => Ok s
  | CallReset e :: rest => run rest (reset e s).2
  | CallGetInternalRepresentative E a q index :: rest =>
      '(_, s') ← getInternalRepresentative E a q index s;
      run rest s'
  end.

(** ** The properties in the words of the specification *)

(** Subterms in the order of a depth-first, left-to-right search that
    visits a term after its children. *)
Fixpoint subterms (n : Node) {struct n} : list Node :=
  match n with
  | mkNode _ _ cs => concat (map subterms cs) ++ [n]
  end.

Definition properSubterms (n : Node) : list Node :=
  concat (map subterms (getChildren n)).

(** Number of nodes of a term, counted as a tree. *)
Fixpoint size (n : Node) {struct n} : nat :=
  match n with
  | mkNode _ _ cs => S (foldr Nat.add 0%nat (map size cs))
  end.

(** A memo table of [getInstance] is sound for a class when every stored
    answer is the answer of a fresh search. *)
Definition cacheSound (eqc : list Node) (cache : gmap Node (option Node))
  : Prop :=
  forall (m : Node) (v : option Node),
    cache !! m = Some v ->
    v = find (fun x => bool_decide (x ∈ eqc)) (subterms m).

(** The instance guard as the specification words it: the first proper
    subterm in the class if there is one, else the candidate if it is in
    the class, else null. *)
Definition firstNestedMember (candidate : Node) (eqc : list Node)
  : option Node :=
  match find (fun m => bool_decide (m ∈ eqc)) (properSubterms candidate) with
  | Some m => Some m
  | None => if bool_decide (candidate ∈ eqc) then Some candidate else None
  end.

(** The smallest non-negative score in a class, if any member has one. *)
Definition minimalPreferred (score : Node -> Z) (eqc : list Node)
  : option Z :=
  match filter (fun z => 0 <= z) (map score eqc) with
  | [] => None
  | z :: zs => Some (foldr Z.min z zs)
  end.

(** The first-enumerated member with a given score. *)
Definition firstScored (score : Node -> Z) (z : Z) (eqc : list Node)
  : option Node :=
  head (filter (fun n => score n = z) eqc).

(** The winner as the specification words it: among the members not scored
    -2, the first with the minimal non-negative score when some member is
    preferred, otherwise the first undesired one. *)
Definition preGuardWinner (score : Node -> Z) (eqc : list Node)
  : option Node :=
  let members := filter (fun n => score n ≠ -2) eqc in
  match minimalPreferred score members with
  | Some best => firstScored score best members
  | None => firstScored score (-1) members
  end.

(** The pair the loop holds once the members of [p] have gone by: the
    winner so far and its score, or null and the initial -1. *)
Definition heldAfter (sc : Node -> Z) (p : list Node) : option Node * Z :=
  (preGuardWinner sc p, from_option sc (-1) (preGuardWinner sc p)).

(** The level tier as section 4.3 words it: the recorded level, and for a
    candidate without one -1 unless the input-only flag is set, then 0. *)
Definition levelScoreAsWorded (o : options.Options) (level : option Z) : Z :=
  match level with
  | Some l => l
  | None => if options.instLevelInputOnly o then 0 else -1
  end.

(** Every cached choice fits the variable type it is filed under. *)
Definition cacheWellTyped (N : NodeManager) (s : State) : Prop :=
  forall (v_tn : TypeNode) (m : gmap Node Node) (r t : Node),
    d_int_rep s !! v_tn = Some m -> m !! r = Some t ->
    isSubtypeOf N (getType N t) v_tn = true.

(** Recorded generations lie between 0 and the current counter. *)
Definition generationsBounded (s : State) : Prop :=
  0 <= d_reset_count s /\
  forall (n : Node) (g : Z),
    d_rep_score s !! n = Some g -> 0 <= g <= d_reset_count s.

(** Every cached choice has an entry in the first-chosen table. *)
Definition choicesRecorded (s : State) : Prop :=
  forall (v_tn : TypeNode) (m : gmap Node Node) (r t : Node),
    d_int_rep s !! v_tn = Some m -> m !! r = Some t ->
    is_Some (d_rep_score s !! t).

(** The counter and the recorded generations are values of an [int]. *)
Definition intState (s : State) : Prop :=
  -2147483648 <= d_reset_count s <= INT_MAX /\
  forall (n : Node) (g : Z),
    d_rep_score s !! n = Some g -> -2147483648 <= g <= INT_MAX.

Definition isReset (c : Call) : bool :=
  match c with
  | CallReset _ => true
  | CallGetInternalRepresentative _ _ _ _ => false
  end.

(** How many resets a session makes. *)
Fixpoint countResets (calls : list Call) {struct calls} : Z :=
  match calls with
  | [] => 0
  | c :: rest => (if isReset c then 1 else 0) + countResets rest
  end.

(** ** Sample terms and surroundings

    A small world on which the definitions can be run: integer terms [a],
    [b] and [f(a)], a real term [y] with the integer-typed [g(y)] above it,
    one value [u] of an uninterpreted sort with an input term [w] of that
    sort, and a quantifier whose single bound variable is an integer. *)

Module sample.

Definition INTEGER : TypeNode := mkTypeNode 0.
Definition REAL : TypeNode := mkTypeNode 1.
Definition USORT : TypeNode := mkTypeNode 2.

Definition a : Node := mkNode (OTHER_KIND 0) 0 [].
Definition b : Node := mkNode (OTHER_KIND 0) 1 [].
Definition y : Node := mkNode (OTHER_KIND 0) 2 [].
Definition u : Node := mkNode (OTHER_KIND 0) 3 [].
Definition w : Node := mkNode (OTHER_KIND 0) 4 [].
Definition x : Node := mkNode (OTHER_KIND 1) 0 [].
Definition fa : Node := mkNode (OTHER_KIND 2) 0 [a].
Definition gy : Node := mkNode (OTHER_KIND 2) 1 [y].
Definition vars : Node := mkNode (OTHER_KIND 3) 0 [x].
Definition all_x : Node := mkNode FORALL 0 [vars; mkNode (OTHER_KIND 0) 9 []].

Definition depth : Node -> Z :=
  fix depth (n : Node) : Z :=
    match n with
    | mkNode _ _ cs => 1 + foldr Z.max (-1) (map depth cs)
    end.

(** Integers are reals; otherwise a type fits only itself.  [instConst]
    lists the terms carrying the instantiation-constant attribute and
    [levels] the recorded instantiation levels. *)
Definition nodes (instConst : list Node) (levels : list (Node * Z))
  : NodeManager :=
  {| getType := fun n =>
       if bool_decide (n = y) then REAL
       else if bool_decide (n = u) || bool_decide (n = w) then USORT
       else INTEGER;
     isSubtypeOf := fun t1 t2 =>
       bool_decide (t1 = t2) ||
       (bool_decide (t1 = INTEGER) && bool_decide (t2 = REAL));
     isSort := fun t => bool_decide (t = USORT);
     isConst := fun n => bool_decide (n = u);
     hasInstConstAttr := fun n => bool_decide (n ∈ instConst);
     containsUninterpretedConstant := fun n => bool_decide (n = u);
     InstLevelAttribute := fun n =>
       snd <$> find (fun p => bool_decide (p.1 = n)) levels;
     getTermDepth := depth |}.

(** An engine that has registered nothing. *)
Definition emptyEngine : uf.EqualityEngine :=
  {| uf.hasTerm := fun _ => false;
     uf.getRepresentative := fun n => n;
     uf.areEqual := fun _ _ => false;
     uf.areDisequal := fun _ _ _ => false;
     uf.EqClassIterator := fun _ => [] |}.

(** An engine that has registered exactly the terms of one class, which
    it enumerates in the given order from the representative [rep]. *)
Definition oneClass (rep : Node) (members : list Node) : uf.EqualityEngine :=
  {| uf.hasTerm := fun n => bool_decide (n ∈ members);
     uf.getRepresentative := fun _ => rep;
     uf.areEqual := fun _ _ => true;
     uf.areDisequal := fun _ _ _ => false;
     uf.EqClassIterator := fun _ => members |}.

Definition anyTerm : TermDb :=
  {| isInstClosure := fun _ => true; hasTermCurrent := fun _ _ => true |}.

Definition depthMode : options.Options :=
  {| options.finiteModelFind := false;
     options.quantRepMode := options.DEPTH;
     options.cbqi := false;
     options.lteRestrictInstClosure := false;
     options.instMaxLevel := -1;
     options.instLevelInputOnly := true |}.

Definition cbqiMode : options.Options :=
  {| options.finiteModelFind := false;
     options.quantRepMode := options.DEPTH;
     options.cbqi := true;
     options.lteRestrictInstClosure := false;
     options.instMaxLevel := -1;
     options.instLevelInputOnly := true |}.

Definition levelMode (inputOnly : bool) : options.Options :=
  {| options.finiteModelFind := false;
     options.quantRepMode := options.FIRST;
     options.cbqi := false;
     options.lteRestrictInstClosure := false;
     options.instMaxLevel := 5;
     options.instLevelInputOnly := inputOnly |}.

Definition fmfMode : options.Options :=
  {| options.finiteModelFind := true;
     options.quantRepMode := options.DEPTH;
     options.cbqi := false;
     options.lteRestrictInstClosure := false;
     options.instMaxLevel := -1;
     options.instLevelInputOnly := true |}.

Definition fmfEeMode : options.Options :=
  {| options.finiteModelFind := true;
     options.quantRepMode := options.EE;
     options.cbqi := false;
     options.lteRestrictInstClosure := false;
     options.instMaxLevel := -1;
     options.instLevelInputOnly := true |}.

Definition firstMode : options.Options :=
  {| options.finiteModelFind := false;
     options.quantRepMode := options.FIRST;
     options.cbqi := false;
     options.lteRestrictInstClosure := false;
     options.instMaxLevel := -1;
     options.instLevelInputOnly := true |}.

Definition eeMode : options.Options :=
  {| options.finiteModelFind := false;
     options.quantRepMode := options.EE;
     options.cbqi := false;
     options.lteRestrictInstClosure := false;
     options.instMaxLevel := -1;
     options.instLevelInputOnly := true |}.

Definition world (o : options.Options) (instConst : list Node)
    (levels : list (Node * Z)) (ee : uf.EqualityEngine)
    (model : option (Node -> option Node)) : Env :=
  {| opts := o;
     nm := nodes instConst levels;
     d_qe := {| getActiveEqualityEngine := ee;
                getModel := model;
                getTermDatabase := anyTerm |} |}.

End sample.

(** ** Outcomes: basic facts *)

Lemma Assert_Ok (b : bool) : Assert b = Ok tt <-> b = true.
Proof. destruct b; simpl; split; congruence. Qed.

Lemma bind_Ok_inv {A B : Type} (m : Res A) (f : A -> Res B) (y : B) :
  m ≫= f = Ok y -> exists x, m = Ok x /\ f x = Ok y.
Proof. destruct m as [x|]; [by exists x | done]. Qed.

(** ** Equality and disequality queries *)

(** C10.  [areEqual a a] is true and [areDisequal a a] is false whether or
    not [a] is registered; for distinct terms of which at least one is not
    registered, [areEqual] is false and [areDisequal] is true exactly when
    both are constants. *)
Theorem areEqual_areDisequal_outside_engine (E : Env) (a b : Node) :
  areEqual E a a = true /\
  areDisequal E a a = false /\
  (a ≠ b -> hasTerm E a = false \/ hasTerm E b = false ->
   areEqual E a b = false /\
   areDisequal E a b = isConst (nm E) a && isConst (nm E) b).
Proof.
  unfold areEqual, areDisequal, hasTerm.
  rewrite !bool_decide_eq_true_2 by done.
  split; [done|]. split; [done|].
  intros Hne Hreg.
  rewrite !bool_decide_eq_false_2 by done.
  assert (uf.hasTerm (getEngine E) a && uf.hasTerm (getEngine E) b = false)
    as -> by (apply andb_false_iff; exact Hreg).
  done.
Qed.

(** Two distinct constants unknown to the engine are reported disequal,
    and a constant against a non-constant is not. *)
Lemma areEqual_areDisequal_outside_engine_witness :
  let E := sample.world sample.depthMode [] [] sample.emptyEngine None in
  (areEqual E sample.u sample.u = true /\
   areDisequal E sample.u sample.u = false /\
   (sample.u ≠ sample.a ->
    hasTerm E sample.u = false \/ hasTerm E sample.a = false ->
    areEqual E sample.u sample.a = false /\
    areDisequal E sample.u sample.a =
      isConst (nm E) sample.u && isConst (nm E) sample.a)) /\
  areDisequal E sample.u sample.a = false.
Proof.
  split; [|reflexivity].
  apply (areEqual_areDisequal_outside_engine
           (sample.world sample.depthMode [] [] sample.emptyEngine None)
           sample.u sample.a).
Defined.

(** ** The equivalence-class view *)

Lemma getEquivalenceClass_self_member_aux (E : Env) (t : Node) :
  (getEquivalenceClass E t [] = Ok [t] \/ hasTerm E t = true) /\
  (forall eqc members : list Node,
     getEquivalenceClass E t eqc = Ok members -> t ∈ members).
Proof.
  unfold getEquivalenceClass, hasTerm. split.
  - destruct (uf.hasTerm (getEngine E) t); [by right | left]. simpl.
    rewrite bool_decide_eq_true_2; [done | set_solver].
  - intros eqc members H.
    apply bind_Ok_inv in H as ([] & HA & H).
    apply Assert_Ok, bool_decide_eq_true in HA.
    by injection H as <-.
Qed.

(** C9.  The class of [t] contains [t]: an unregistered [t] yields exactly
    [[t]]; a registered one yields what the iterator from its
    representative yields, and the assertion lets that through only when
    [t] is among it.  Whatever vector the caller passes in, a result that
    is produced contains [t]. *)
Theorem getEquivalenceClass_self_member (E : Env) (t : Node) :
  getEquivalenceClass E t [] =
    (if hasTerm E t
     then
       let members :=
         uf.EqClassIterator (getEngine E)
           (uf.getRepresentative (getEngine E) t) in
       if bool_decide (t ∈ members) then Ok members else AssertionFailure
     else Ok [t]) /\
  (forall eqc members : list Node,
     getEquivalenceClass E t eqc = Ok members -> t ∈ members).
Proof.
  unfold getEquivalenceClass, hasTerm. split.
  - destruct (uf.hasTerm (getEngine E) t); simpl.
    + by case_bool_decide.
    + rewrite bool_decide_eq_true_2; [done | set_solver].
  - intros eqc members H.
    apply bind_Ok_inv in H as ([] & HA & H).
    apply Assert_Ok, bool_decide_eq_true in HA.
    by injection H as <-.
Qed.

(** ** The scoring policy *)

Lemma toInt_id (z : Z) : -2147483648 <= z <= INT_MAX -> toInt z = z.
Proof.
  unfold toInt, INT_MAX. intros H. rewrite Z.mod_small; lia.
Qed.

(** A level above [INT_MAX] does not survive the conversion: the level
    4294967294 comes back as -2, the score that means rejection. *)
Example level_beyond_int_wraps :
  getRepScore
    (sample.world (sample.levelMode false) [] [(sample.a, 4294967294)]
       sample.emptyEngine None)
    initial sample.a None 0 sample.INTEGER = Ok (-2).
Proof. reflexivity. Qed.

(** C5, as the code has it.  In the level tier (maximum level configured,
    earlier tiers passed) a candidate with a recorded level scores that
    level converted to [int], which is the level itself for every level
    up to [INT_MAX]; one without scores -1 when [instLevelInputOnly] is
    set and 0 when it is not. *)
Theorem getRepScore_level_tier (E : Env) (s : State) (n : Node)
    (q : option Node) (index : Z) (v_tn : TypeNode) :
  options.cbqi (opts E) && hasInstConstAttr (nm E) n = false ->
  isSubtypeOf (nm E) (getType (nm E) n) v_tn = true ->
  options.lteRestrictInstClosure (opts E) &&
    (negb (isInstClosure (getTermDatabase (d_qe E)) n) ||
     negb (hasTermCurrent (getTermDatabase (d_qe E)) n false)) = false ->
  options.instMaxLevel (opts E) ≠ -1 ->
  getRepScore E s n q index v_tn =
    Ok match InstLevelAttribute (nm E) n with
       | Some level => toInt level
       | None => if options.instLevelInputOnly (opts E) then -1 else 0
       end /\
  (forall level,
     InstLevelAttribute (nm E) n = Some level ->
     0 <= level <= INT_MAX ->
     getRepScore E s n q index v_tn = Ok level).
Proof.
  intros H1 H2 H3 H4.
  assert (getRepScore E s n q index v_tn =
          Ok match InstLevelAttribute (nm E) n with
             | Some level => toInt level
             | None => if options.instLevelInputOnly (opts E) then -1 else 0
             end) as Hscore.
  { unfold getRepScore. cbv zeta. rewrite H1, H2, H3. simpl.
    apply Z.eqb_neq in H4. rewrite H4. simpl.
    by destruct (InstLevelAttribute (nm E) n). }
  split; [done|]. intros level Hl Hrange.
  rewrite Hscore, Hl, toInt_id; [done | lia].
Qed.

(** Without a level and with the flag unset [a] scores 0; [b], recorded
    at level 3, scores 3. *)
Lemma getRepScore_level_tier_witness :
  getRepScore
    (sample.world (sample.levelMode false) [] [(sample.b, 3)]
       sample.emptyEngine None)
    initial sample.a None 0 sample.INTEGER = Ok 0 /\
  getRepScore
    (sample.world (sample.levelMode false) [] [(sample.b, 3)]
       sample.emptyEngine None)
    initial sample.b None 0 sample.INTEGER = Ok 3.
Proof.
  split.
  - refine (proj1 (getRepScore_level_tier
             (sample.world (sample.levelMode false) [] [(sample.b, 3)]
                sample.emptyEngine None)
             initial sample.a None 0 sample.INTEGER _ _ _ _));
      [reflexivity | reflexivity | reflexivity | discriminate].
  - refine (proj2 (getRepScore_level_tier
             (sample.world (sample.levelMode false) [] [(sample.b, 3)]
                sample.emptyEngine None)
             initial sample.b None 0 sample.INTEGER _ _ _ _) 3 _ _);
      try reflexivity; try discriminate. unfold INT_MAX. lia.
Defined.

(** C5, as worded, fails on the polarity of the flag: with
    [instLevelInputOnly] set, a candidate without a level scores -1, where
    the wording gives 0. *)
Lemma getRepScore_level_flag_set :
  let E := sample.world (sample.levelMode true) [] [] sample.emptyEngine None in
  options.instMaxLevel (opts E) = 5 /\
  options.instLevelInputOnly (opts E) = true /\
  InstLevelAttribute (nm E) sample.a = None /\
  getRepScore E initial sample.a None 0 sample.INTEGER = Ok (-1) /\
  levelScoreAsWorded (opts E) (InstLevelAttribute (nm E) sample.a) = 0 /\
  getRepScore E initial sample.a None 0 sample.INTEGER ≠
    Ok (levelScoreAsWorded (opts E) (InstLevelAttribute (nm E) sample.a)).
Proof. repeat split; try reflexivity. discriminate. Qed.

(** ** Mapping back from model values *)

(** C8.  With finite-model finding on, a model present and a raw
    representative [r] that is a constant containing an uninterpreted
    constant: without a witnessing term the call halts on the assertion
    when the type of [r] is an uninterpreted sort and otherwise carries on
    with [r]; with a witnessing term [tr] it carries on with what the
    equality engine gives as the representative of [tr] ([tr] itself when
    the engine has not registered it).  In the mode that returns the
    representative directly these are the terms the call returns. *)
Theorem getInternalRepresentative_model_value (E : Env) (a : Node)
    (q : option Node) (index : Z) (s : State)
    (getTermForRepresentative : Node -> option Node) :
  let r := getRepresentative E a in
  options.finiteModelFind (opts E) = true ->
  isConst (nm E) r = true ->
  containsUninterpretedConstant (nm E) r = true ->
  getModel (d_qe E) = Some getTermForRepresentative ->
  getInternalRepresentative E a q index s =
    match getTermForRepresentative r with
    | None =>
        if isSort (nm E) (getType (nm E) r) then AssertionFailure
        else Assert (quantifierOk q) ;; lookupOrSelect E a q index r s
    | Some tr =>
        Assert (quantifierOk q) ;;
        lookupOrSelect E a q index
          (if uf.hasTerm (getEngine E) tr
           then uf.getRepresentative (getEngine E) tr
           else tr) s
    end /\
  (options.quantRepMode (opts E) = options.EE ->
   quantifierOk q = true ->
   getInternalRepresentative E a q index s =
     match getTermForRepresentative r with
     | None =>
         if isSort (nm E) (getType (nm E) r) then AssertionFailure
         else Ok (r, s)
     | Some tr =>
         Ok (if uf.hasTerm (getEngine E) tr
             then uf.getRepresentative (getEngine E) tr
             else tr, s)
     end).
Proof.
  intros r Hfmf Hc Hu Hm.
  assert (getInternalRepresentative E a q index s =
          match getTermForRepresentative r with
          | None =>
              if isSort (nm E) (getType (nm E) r) then AssertionFailure
              else Assert (quantifierOk q) ;; lookupOrSelect E a q index r s
          | Some tr =>
              Assert (quantifierOk q) ;;
              lookupOrSelect E a q index
                (if uf.hasTerm (getEngine E) tr
                 then uf.getRepresentative (getEngine E) tr
                 else tr) s
          end) as Hcall.
  { unfold getInternalRepresentative, mapFromModel. fold r.
    rewrite Hfmf, Hc, Hu, Hm. simpl.
    destruct (getTermForRepresentative r) as [tr|]; [done|].
    destruct (isSort (nm E) (getType (nm E) r)); [|done].
    by destruct (quantifierOk q). }
  split; [exact Hcall|].
  intros Hmode Hq. rewrite Hcall, Hq. unfold lookupOrSelect.
  rewrite Hmode. simpl.
  destruct (getTermForRepresentative r) as [tr|]; [done|].
  by destruct (isSort (nm E) (getType (nm E) r)).
Qed.

(** The value [u] of an uninterpreted sort, unknown to the engine.
    Without a witnessing term the call is fatal.  With the witnessing
    term [w], which the engine has in a class whose representative is
    [b], the call in the direct mode returns [b]: neither the value [u]
    nor the witness [w], but the engine's representative of the
    witness. *)
Lemma getInternalRepresentative_model_value_witness :
  getInternalRepresentative
    (sample.world sample.fmfMode [] [] sample.emptyEngine
       (Some (fun _ => None)))
    sample.u None 0 initial = AssertionFailure /\
  getInternalRepresentative
    (sample.world sample.fmfEeMode [] []
       (sample.oneClass sample.b [sample.b; sample.w])
       (Some (fun _ => Some sample.w)))
    sample.u None 0 initial = Ok (sample.b, initial).
Proof.
  split.
  - refine (proj1 (getInternalRepresentative_model_value
             (sample.world sample.fmfMode [] [] sample.emptyEngine
                (Some (fun _ => None)))
             sample.u None 0 initial (fun _ => None) _ _ _ _));
      reflexivity.
  - refine (proj2 (getInternalRepresentative_model_value
             (sample.world sample.fmfEeMode [] []
                (sample.oneClass sample.b [sample.b; sample.w])
                (Some (fun _ => Some sample.w)))
             sample.u None 0 initial (fun _ => Some sample.w) _ _ _ _) _ _);
      reflexivity.
Defined.

(** ** The instance guard *)

Section instance_guard.

Variable eqc : list Node.

Let inClass (m : Node) : bool := bool_decide (m ∈ eqc).

Lemma find_over_app {A : Type} (P : A -> bool) (l1 l2 : list A) :
  find P (l1 ++ l2) =
    match find P l1 with
    | Some x => Some x
    | None => find P l2
    end.
Proof.
  induction l1 as [|x l1 IH]; simpl; [done|]. by destruct (P x).
Qed.

Lemma find_Some_holds {A : Type} (P : A -> bool) (l : list A) (x : A) :
  find P l = Some x -> x ∈ l /\ P x = true.
Proof.
  induction l as [|y l IH]; simpl; [done|].
  destruct (P y) eqn:E.
  - intros [= ->]. split; [left | done].
  - intros H. destruct (IH H). split; [by right | done].
Qed.

Lemma find_None_all {A : Type} (P : A -> bool) (l : list A) :
  find P l = None <-> forall x, x ∈ l -> P x = false.
Proof.
  induction l as [|y l IH]; simpl.
  - split; [|done]. intros _ x Hx. by apply elem_of_nil in Hx.
  - destruct (P y) eqn:E.
    + split; [done|]. intros H. specialize (H y (list_elem_of_here _ _)).
      congruence.
    + rewrite IH. split.
      * intros H x [->|Hx]%elem_of_cons; auto.
      * intros H x Hx. apply H. by right.
Qed.

Lemma subterms_unfold (n : Node) : subterms n = properSubterms n ++ [n].
Proof. by destruct n. Qed.

(** The worded guard is the first class member met by the search. *)
Lemma firstNestedMember_find (n : Node) :
  firstNestedMember n eqc = find inClass (subterms n).
Proof.
  unfold firstNestedMember. rewrite subterms_unfold, find_over_app.
  fold inClass. destruct (find inClass (properSubterms n)); [done|].
  simpl. unfold inClass. by case_bool_decide.
Qed.

Lemma cacheSound_empty : cacheSound eqc ∅.
Proof. intros m v H. by rewrite lookup_empty in H. Qed.

Lemma cacheSound_insert (cache : gmap Node (option Node)) (n : Node) :
  cacheSound eqc cache ->
  cacheSound eqc (<[n := find inClass (subterms n)]> cache).
Proof.
  intros Hs m v. rewrite lookup_insert. case_decide as Hd.
  - subst m. by intros [= <-].
  - apply Hs.
Qed.

(** The children loop, given that every child is searched correctly. *)
Lemma firstInstance_sound (cs : list Node) :
  Forall (fun c => forall cache, cacheSound eqc cache ->
            (getInstance c eqc cache).1 = find inClass (subterms c) /\
            cacheSound eqc (getInstance c eqc cache).2) cs ->
  forall cache, cacheSound eqc cache ->
    (firstInstance (fun c => getInstance c eqc) cs cache).1 =
      find inClass (concat (map subterms cs)) /\
    cacheSound eqc (firstInstance (fun c => getInstance c eqc) cs cache).2.
Proof.
  induction 1 as [|c cs Hc _ IH]; intros cache Hs; simpl; [done|].
  destruct (Hc cache Hs) as [H1 H2].
  destruct (getInstance c eqc cache) as [nn cache'] eqn:E. simpl in *.
  rewrite find_over_app, <- H1.
  destruct nn; [done|]. by apply IH.
Qed.

(** The memoised search on a sound table answers as a fresh search and
    leaves a sound table. *)
Lemma getInstance_sound (n : Node) :
  forall cache, cacheSound eqc cache ->
    (getInstance n eqc cache).1 = find inClass (subterms n) /\
    cacheSound eqc (getInstance n eqc cache).2.
Proof.
  induction n as [k id cs IH] using Node_ind'. intros cache Hs.
  set (n := mkNode k id cs).
  assert (getInstance n eqc cache =
          match cache !! n with
          | Some v => (v, cache)
          | None =>
              let '(nn, cache) :=
                firstInstance (fun c => getInstance c eqc) cs cache in
              match nn with
              | Some _ => (nn, <[n := nn]> cache)
              | None =>
                  if bool_decide (n ∈ eqc)
                  then (Some n, <[n := Some n]> cache)
                  else (None, <[n := None]> cache)
              end
          end) as -> by done.
  destruct (cache !! n) as [v|] eqn:Hl.
  - split; [exact (Hs n v Hl) | done].
  - destruct (firstInstance_sound cs IH cache Hs) as [H1 H2].
    destruct (firstInstance _ cs cache) as [nn cache'] eqn:E. simpl in *.
    assert (find inClass (subterms n) =
            match nn with
            | Some x => Some x
            | None => if bool_decide (n ∈ eqc) then Some n else None
            end) as Hn.
    { subst n. simpl subterms. rewrite find_over_app, <- H1.
      destruct nn; [done|]. simpl. unfold inClass. by case_bool_decide. }
    destruct nn as [x|].
    + simpl. split; [done|]. rewrite <- Hn. by apply cacheSound_insert.
    + case_bool_decide; simpl; (split; [done|]);
        rewrite <- Hn; by apply cacheSound_insert.
Qed.

Lemma size_subterms (n m : Node) : m ∈ subterms n -> (size m <= size n)%nat.
Proof.
  revert m. induction n as [k id cs IH] using Node_ind'. intros m.
  simpl. rewrite elem_of_app, list_elem_of_singleton.
  intros [Hm | ->]; [|done].
  apply Nat.le_le_succ_r.
  induction IH as [|c cs Hc _ IHcs]; simpl in *.
  - by apply elem_of_nil in Hm.
  - apply elem_of_app in Hm as [Hm|Hm].
    + specialize (Hc m Hm). lia.
    + specialize (IHcs Hm). lia.
Qed.

Lemma size_properSubterms (n m : Node) :
  m ∈ properSubterms n -> (size m < size n)%nat.
Proof.
  destruct n as [k id cs]. intros Hm.
  assert (m ∈ subterms (mkNode k id cs)) as H.
  { rewrite subterms_unfold. apply elem_of_app. by left. }
  unfold properSubterms in Hm. simpl in *.
  clear H. apply Nat.lt_succ_r.
  induction cs as [|c cs IH]; simpl in *.
  - by apply elem_of_nil in Hm.
  - apply elem_of_app in Hm as [Hm|Hm].
    + apply size_subterms in Hm. lia.
    + specialize (IH Hm). lia.
Qed.

(** A class member nested in the candidate makes the guard answer with a
    proper subterm, which is then not the candidate. *)
Lemma firstNestedMember_nested (n m : Node) :
  m ∈ properSubterms n -> m ∈ eqc ->
  exists t, firstNestedMember n eqc = Some t /\
            t ∈ properSubterms n /\ t ∈ eqc /\ t ≠ n.
Proof.
  intros Hm Hc. unfold firstNestedMember.
  destruct (find _ (properSubterms n)) as [t|] eqn:E.
  - apply find_Some_holds in E as [Ht1 Ht2].
    apply bool_decide_eq_true in Ht2.
    exists t. repeat split; try done.
    intros ->. apply size_properSubterms in Ht1. lia.
  - rewrite find_None_all in E. specialize (E m Hm).
    apply bool_decide_eq_false in E. done.
Qed.

(** Without a nested class member the guard keeps a candidate that is in
    the class. *)
Lemma firstNestedMember_plain (n : Node) :
  (forall m, m ∈ properSubterms n -> m ∉ eqc) -> n ∈ eqc ->
  firstNestedMember n eqc = Some n.
Proof.
  intros Hm Hn. unfold firstNestedMember.
  assert (find (fun m => bool_decide (m ∈ eqc)) (properSubterms n) = None)
    as ->.
  { apply find_None_all. intros x Hx. apply bool_decide_eq_false. auto. }
  by rewrite bool_decide_eq_true_2.
Qed.

(** What the guard answers is in the class. *)
Lemma firstNestedMember_member (n t : Node) :
  firstNestedMember n eqc = Some t -> t ∈ eqc.
Proof.
  rewrite firstNestedMember_find. intros H.
  apply find_Some_holds in H as [_ H]. by apply bool_decide_eq_true in H.
Qed.

Lemma firstNestedMember_is_Some (n : Node) :
  n ∈ eqc -> is_Some (firstNestedMember n eqc).
Proof.
  intros Hn. rewrite firstNestedMember_find.
  destruct (find inClass (subterms n)) as [t|] eqn:E; [by exists t|].
  rewrite find_None_all in E.
  assert (n ∈ subterms n) as Hs.
  { rewrite subterms_unfold. apply elem_of_app. right. by left. }
  specialize (E n Hs). apply bool_decide_eq_false in E. done.
Qed.

(** The call as [getInternalRepresentative] makes it, on a fresh table. *)
Lemma getInstance_fresh (n : Node) :
  (getInstance n eqc ∅).1 = firstNestedMember n eqc.
Proof.
  rewrite firstNestedMember_find.
  apply getInstance_sound, cacheSound_empty.
Qed.

End instance_guard.

(** ** The selection loop *)

Section selection.

Variable sc : Node -> Z.

Lemma foldr_min_le (z : Z) (zs : list Z) :
  foldr Z.min z zs <= z /\ forall x, x ∈ zs -> foldr Z.min z zs <= x.
Proof.
  induction zs as [|y zs [IH1 IH2]]; simpl.
  - split; [lia|]. intros x Hx. by apply elem_of_nil in Hx.
  - split; [lia|]. intros x [->|Hx]%elem_of_cons; [lia|].
    specialize (IH2 x Hx). lia.
Qed.

Lemma foldr_min_in (z : Z) (zs : list Z) : foldr Z.min z zs ∈ z :: zs.
Proof.
  induction zs as [|y zs IH]; simpl; [left|].
  destruct (Z.min_spec y (foldr Z.min z zs)) as [[_ ->]|[_ ->]].
  - right. left.
  - apply elem_of_cons in IH as [->|IH]; [left | right; by right].
Qed.

Lemma minimalPreferred_None (l : list Node) :
  minimalPreferred sc l = None <-> forall x, x ∈ l -> sc x < 0.
Proof.
  unfold minimalPreferred.
  destruct (filter _ (map sc l)) as [|z zs] eqn:E.
  - split; [|done]. intros _ x Hx.
    destruct (decide (0 <= sc x)) as [Hge|]; [|lia].
    assert (sc x ∈ filter (fun z => 0 <= z) (map sc l)) as Hin.
    { apply list_elem_of_filter. split; [done|].
      apply list_elem_of_fmap. by exists x. }
    rewrite E in Hin. by apply elem_of_nil in Hin.
  - split; [done|]. intros H.
    assert (z ∈ filter (fun z => 0 <= z) (map sc l)) as Hin
      by (rewrite E; left).
    apply list_elem_of_filter in Hin as [Hz Hin].
    apply list_elem_of_fmap in Hin as (x & -> & Hx).
    specialize (H x Hx). lia.
Qed.

Lemma minimalPreferred_Some (l : list Node) (m : Z) :
  minimalPreferred sc l = Some m <->
  0 <= m /\ (exists x, x ∈ l /\ sc x = m) /\
  (forall x, x ∈ l -> 0 <= sc x -> m <= sc x).
Proof.
  split.
  - unfold minimalPreferred.
    destruct (filter _ (map sc l)) as [|z zs] eqn:E; [done|].
    intros [= <-].
    assert (forall v, v ∈ z :: zs -> 0 <= v /\ exists x, x ∈ l /\ sc x = v)
      as Hall.
    { intros v Hv. rewrite <- E in Hv.
      apply list_elem_of_filter in Hv as [Hv Hin].
      apply list_elem_of_fmap in Hin as (x & -> & Hx). eauto. }
    destruct (Hall _ (foldr_min_in z zs)) as [H0 Hex].
    repeat split; [done | done |].
    intros x Hx Hge.
    assert (sc x ∈ z :: zs) as Hin.
    { rewrite <- E. apply list_elem_of_filter. split; [done|].
      apply list_elem_of_fmap. by exists x. }
    destruct (foldr_min_le z zs) as [H1 H2].
    apply elem_of_cons in Hin as [->|Hin]; [done | by apply H2].
  - intros (H0 & (x & Hx & Hsx) & Hmin).
    destruct (minimalPreferred sc l) as [m'|] eqn:E.
    + unfold minimalPreferred in E.
      destruct (filter _ (map sc l)) as [|z zs] eqn:E'; [done|].
      injection E as <-.
      assert (forall v, v ∈ z :: zs -> 0 <= v /\ exists x, x ∈ l /\ sc x = v)
        as Hall.
      { intros v Hv. rewrite <- E' in Hv.
        apply list_elem_of_filter in Hv as [Hv Hin].
        apply list_elem_of_fmap in Hin as (x' & -> & Hx'). eauto. }
      destruct (Hall _ (foldr_min_in z zs)) as [H0' (x' & Hx' & Hsx')].
      assert (sc x ∈ z :: zs) as Hin.
      { rewrite <- E'. apply list_elem_of_filter. split; [lia|].
        apply list_elem_of_fmap. by exists x. }
      destruct (foldr_min_le z zs) as [H1 H2].
      assert (foldr Z.min z zs <= sc x) as Hle.
      { apply elem_of_cons in Hin as [->|Hin]; [done | by apply H2]. }
      specialize (Hmin x' Hx'). f_equal. lia.
    + rewrite minimalPreferred_None in E. specialize (E x Hx). lia.
Qed.

Lemma firstScored_snoc (z : Z) (l : list Node) (n : Node) :
  firstScored sc z (l ++ [n]) =
    match firstScored sc z l with
    | Some x => Some x
    | None => if decide (sc n = z) then Some n else None
    end.
Proof.
  unfold firstScored. rewrite filter_app.
  destruct (filter _ l) as [|x xs]; simpl; [|done].
  rewrite filter_cons, filter_nil. by case_decide.
Qed.

Lemma firstScored_None (z : Z) (l : list Node) :
  firstScored sc z l = None <-> forall x, x ∈ l -> sc x ≠ z.
Proof.
  unfold firstScored. destruct (filter _ l) as [|y ys] eqn:E; simpl.
  - split; [|done]. intros _ x Hx Hz.
    assert (x ∈ filter (fun n => sc n = z) l) as Hin
      by (by apply list_elem_of_filter).
    rewrite E in Hin. by apply elem_of_nil in Hin.
  - split; [done|]. intros H.
    assert (y ∈ filter (fun n => sc n = z) l) as Hin by (rewrite E; left).
    apply list_elem_of_filter in Hin as [Hy Hin]. by destruct (H y Hin).
Qed.

Lemma firstScored_Some (z : Z) (l : list Node) (x : Node) :
  firstScored sc z l = Some x -> x ∈ l /\ sc x = z.
Proof.
  unfold firstScored. destruct (filter _ l) as [|y ys] eqn:E; [done|].
  intros [= ->].
  assert (x ∈ filter (fun n => sc n = z) l) as Hin by (rewrite E; left).
  apply list_elem_of_filter in Hin as [? ?]. done.
Qed.

(** One iteration takes the held pair for a prefix to the one for the
    prefix extended by the member just scored. *)
Lemma heldAfter_snoc (p : list Node) (n : Node) :
  (forall x, x ∈ p -> -2 <= sc x) -> -2 <= sc n ->
  heldAfter sc (p ++ [n]) =
    if negb (sc n =? -2) &&
       (bool_decide ((heldAfter sc p).1 = None) ||
        ((0 <=? sc n) &&
         (((heldAfter sc p).2 <? 0) || (sc n <? (heldAfter sc p).2))))
    then (Some n, sc n)
    else heldAfter sc p.
Proof.
  intros Hp Hn. unfold heldAfter, preGuardWinner. simpl.
  rewrite filter_app, filter_cons, filter_nil.
  set (M := filter (fun x => sc x ≠ -2) p).
  assert (forall x, x ∈ M -> x ∈ p /\ -1 <= sc x) as HM.
  { intros x Hx. apply list_elem_of_filter in Hx as [H1 H2].
    specialize (Hp x H2). split; [done | lia]. }
  destruct (Z.eqb_spec (sc n) (-2)) as [Heq|Hne]; simpl.
  { rewrite decide_False by (intros H; by apply H). by rewrite app_nil_r. }
  rewrite decide_True by done.
  destruct (minimalPreferred sc M) as [m|] eqn:Emin.
  - apply minimalPreferred_Some in Emin as (Hm0 & (x & Hx & Hsx) & Hmin).
    destruct (firstScored sc m M) as [w|] eqn:Ew;
      [|rewrite firstScored_None in Ew; by destruct (Ew x Hx)].
    destruct (firstScored_Some _ _ _ Ew) as [Hw1 Hw2].
    simpl. rewrite ?bool_decide_eq_false_2 by done. rewrite Hw2. simpl.
    assert ((m <? 0) = false) as -> by lia. simpl.
    destruct (Z.leb_spec 0 (sc n)) as [Hge|Hlt];
      [destruct (Z.ltb_spec (sc n) m) as [Hlt|Hge']|]; simpl.
    + assert (minimalPreferred sc (M ++ [n]) = Some (sc n)) as ->.
      { apply minimalPreferred_Some. repeat split; [done | |].
        - exists n. split; [|done]. apply elem_of_app. right. left.
        - intros y [Hy|Hy%list_elem_of_singleton]%elem_of_app Hy0;
            [|subst; lia].
          specialize (Hmin y Hy Hy0). lia. }
      rewrite firstScored_snoc.
      assert (firstScored sc (sc n) M = None) as ->.
      { apply firstScored_None. intros y Hy Hsy.
        specialize (Hmin y Hy). lia. }
      by rewrite decide_True.
    + assert (minimalPreferred sc (M ++ [n]) = Some m) as ->.
      { apply minimalPreferred_Some. repeat split; [done | |].
        - exists x. split; [|done]. apply elem_of_app. by left.
        - intros y [Hy|Hy%list_elem_of_singleton]%elem_of_app Hy0;
            [by apply Hmin | subst; lia]. }
      rewrite firstScored_snoc, Ew. simpl. by rewrite Hw2.
    + assert (minimalPreferred sc (M ++ [n]) = Some m) as ->.
      { apply minimalPreferred_Some. repeat split; [done | |].
        - exists x. split; [|done]. apply elem_of_app. by left.
        - intros y [Hy|Hy%list_elem_of_singleton]%elem_of_app Hy0;
            [by apply Hmin | subst; lia]. }
      rewrite firstScored_snoc, Ew. simpl. by rewrite Hw2.
  - pose proof Emin as Hneg. rewrite minimalPreferred_None in Hneg.
    destruct (Z.leb_spec 0 (sc n)) as [Hge|Hlt]; simpl.
    + assert (minimalPreferred sc (M ++ [n]) = Some (sc n)) as ->.
      { apply minimalPreferred_Some. repeat split; [done | |].
        - exists n. split; [|done]. apply elem_of_app. right. left.
        - intros y [Hy|Hy%list_elem_of_singleton]%elem_of_app Hy0;
            [|subst; lia].
          specialize (Hneg y Hy). lia. }
      rewrite firstScored_snoc.
      assert (firstScored sc (sc n) M = None) as ->.
      { apply firstScored_None. intros y Hy Hsy.
        specialize (Hneg y Hy). lia. }
      rewrite decide_True by done.
      destruct (firstScored sc (-1) M) as [w|] eqn:Ew; simpl.
      * apply firstScored_Some in Ew as [_ ->]. simpl.
        by rewrite ?orb_true_r.
      * done.
    + assert (minimalPreferred sc (M ++ [n]) = None) as ->.
      { apply minimalPreferred_None.
        intros y [Hy|Hy%list_elem_of_singleton]%elem_of_app;
          [by apply Hneg | subst; lia]. }
      rewrite firstScored_snoc.
      destruct (firstScored sc (-1) M) as [w|] eqn:Ew; simpl.
      * by rewrite ?andb_false_r.
      * rewrite decide_True by lia. by rewrite ?orb_true_l.
Qed.

Variable score : Node -> Res Z.

Lemma selectLoop_heldAfter (l p : list Node) :
  (forall x, x ∈ p ++ l -> score x = Ok (sc x) /\ -2 <= sc x) ->
  selectLoop score l (heldAfter sc p).1 (heldAfter sc p).2 =
    Ok (heldAfter sc (p ++ l)).
Proof.
  revert p. induction l as [|n l IH]; intros p Hall.
  - rewrite app_nil_r. reflexivity.
  - assert (score n = Ok (sc n) /\ -2 <= sc n) as [Hn1 Hn2].
    { apply Hall, elem_of_app. right. left. }
    assert (forall x, x ∈ p -> -2 <= sc x) as Hp.
    { intros x Hx. apply Hall, elem_of_app. by left. }
    pose proof (heldAfter_snoc p n Hp Hn2) as Hstep.
    specialize (IH (p ++ [n])).
    assert ((p ++ [n]) ++ l = p ++ n :: l) as Heq by (by rewrite <- app_assoc).
    rewrite Heq in IH. specialize (IH Hall). rewrite Hstep in IH.
    cbn [selectLoop]. rewrite Hn1. cbn [mbind Res_bind].
    destruct (negb (sc n =? -2) && _); exact IH.
Qed.

End selection.

(** C4.  With every member scored in the three tiers, the loop ends with
    the winner as worded: the first member with the minimal non-negative
    score when there is one, otherwise the first member scored -1 (null
    when all are rejected), together with its score.  A member scored -1
    does not replace a candidate already found, and neither does one whose
    score equals the held score. *)
Theorem selectLoop_winner (score : Node -> Res Z) (sc : Node -> Z)
    (eqc : list Node) :
  (forall n, n ∈ eqc -> score n = Ok (sc n) /\ -2 <= sc n) ->
  selectLoop score eqc None (-1) =
    Ok (preGuardWinner sc eqc,
        from_option sc (-1) (preGuardWinner sc eqc)) /\
  (forall (n found : Node) (held : Z) (rest : list Node),
     score n = Ok (-1) ->
     selectLoop score (n :: rest) (Some found) held =
     selectLoop score rest (Some found) held) /\
  (forall (n found : Node) (held : Z) (rest : list Node),
     score n = Ok held ->
     selectLoop score (n :: rest) (Some found) held =
     selectLoop score rest (Some found) held).
Proof.
  intros Hall. split; [|split].
  - exact (selectLoop_heldAfter sc score eqc [] Hall).
  - intros n found held rest Hn. cbn [selectLoop]. by rewrite Hn.
  - intros n found held rest Hn. cbn [selectLoop]. rewrite Hn.
    cbn [mbind Res_bind].
    rewrite bool_decide_eq_false_2 by done.
    rewrite Z.ltb_irrefl, orb_false_r.
    destruct (Z.leb_spec 0 held), (Z.ltb_spec held 0);
      rewrite ?andb_false_r; simpl; try done; lia.
Qed.

(** The class [f(a), a, b] under depth scoring: [a] wins, ahead of the
    deeper [f(a)] enumerated before it and of [b], which ties with it. *)
Lemma selectLoop_winner_witness :
  selectLoop
    (fun n =>
       getRepScore
         (sample.world sample.depthMode [] [] sample.emptyEngine None)
         initial n None 0 sample.INTEGER)
    [sample.fa; sample.a; sample.b] None (-1) = Ok (Some sample.a, 0).
Proof.
  refine (proj1 (selectLoop_winner
           (fun n =>
              getRepScore
                (sample.world sample.depthMode [] [] sample.emptyEngine None)
                initial n None 0 sample.INTEGER)
           sample.depth [sample.fa; sample.a; sample.b] _)).
  intros n Hn. rewrite !elem_of_cons, elem_of_nil in Hn.
  destruct Hn as [->|[->|[->|[]]]];
    (split; [reflexivity | vm_compute; discriminate]).
Defined.

(** ** The selector: how a call unfolds *)

Lemma touch_lookup (v_tn : TypeNode) (s : State) :
  default ∅ (d_int_rep (touch v_tn s) !! v_tn) =
  default ∅ (d_int_rep s !! v_tn).
Proof.
  unfold touch. destruct (d_int_rep s !! v_tn) eqn:E; simpl.
  - by rewrite E.
  - by rewrite lookup_insert_eq.
Qed.

Lemma touch_rep_score (v_tn : TypeNode) (s : State) :
  d_rep_score (touch v_tn s) = d_rep_score s.
Proof. unfold touch. by destruct (d_int_rep s !! v_tn). Qed.

Lemma touch_reset_count (v_tn : TypeNode) (s : State) :
  d_reset_count (touch v_tn s) = d_reset_count s.
Proof. unfold touch. by destruct (d_int_rep s !! v_tn). Qed.

Lemma touch_present (v_tn : TypeNode) (s : State) :
  is_Some (d_int_rep s !! v_tn) -> touch v_tn s = s.
Proof. intros [m Hm]. unfold touch. by rewrite Hm. Qed.

Lemma storeChoice_touch (v_tn : TypeNode) (r t : Node) (s : State) :
  storeChoice v_tn r t (touch v_tn s) = storeChoice v_tn r t s.
Proof.
  unfold storeChoice.
  rewrite touch_lookup, touch_rep_score, touch_reset_count. f_equal.
  unfold touch. destruct (d_int_rep s !! v_tn); simpl; [done|].
  by rewrite insert_insert_eq.
Qed.

Lemma storeChoice_lookup (v_tn : TypeNode) (r t : Node) (s : State) :
  default ∅ (d_int_rep (storeChoice v_tn r t s) !! v_tn) !! r = Some t.
Proof. simpl. by rewrite lookup_insert_eq; simpl; rewrite lookup_insert_eq. Qed.

Lemma getRepScore_touch (E : Env) (v : TypeNode) (s : State) (n : Node)
    (q : option Node) (index : Z) (v_tn : TypeNode) :
  getRepScore E (touch v s) n q index v_tn = getRepScore E s n q index v_tn.
Proof. unfold getRepScore. by rewrite touch_rep_score. Qed.

(** Outside the mode that bypasses selection, scoring never halts. *)
Lemma getRepScore_total (E : Env) (s : State) (n : Node) (q : option Node)
    (index : Z) (v_tn : TypeNode) :
  options.quantRepMode (opts E) ≠ options.EE ->
  exists z, getRepScore E s n q index v_tn = Ok z.
Proof.
  intros Hmode. unfold getRepScore. cbv zeta.
  destruct (_ && hasInstConstAttr _ _); [eauto|].
  destruct (negb (isSubtypeOf _ _ _)); [eauto|].
  destruct (options.lteRestrictInstClosure _ && _); [eauto|].
  destruct (negb (_ =? -1)).
  - destruct (InstLevelAttribute (nm E) n); eauto.
  - destruct (options.quantRepMode (opts E)); simpl; eauto. done.
Qed.

(** With levels that fit an [int] and depths and recorded generations
    that are not negative, every score lies in one of the three tiers. *)
Lemma getRepScore_tiers (E : Env) (s : State) (n : Node) (q : option Node)
    (index : Z) (v_tn : TypeNode) (z : Z) :
  (forall m l, InstLevelAttribute (nm E) m = Some l -> 0 <= l <= INT_MAX) ->
  (forall m, 0 <= getTermDepth (nm E) m) ->
  (forall m g, d_rep_score s !! m = Some g -> 0 <= g) ->
  getRepScore E s n q index v_tn = Ok z -> -2 <= z.
Proof.
  intros Hlevel Hdepth Hgen. unfold getRepScore. cbv zeta.
  destruct (_ && hasInstConstAttr _ _); [intros [= <-]; lia|].
  destruct (negb (isSubtypeOf _ _ _)); [intros [= <-]; lia|].
  destruct (options.lteRestrictInstClosure _ && _); [intros [= <-]; lia|].
  destruct (negb (_ =? -1)).
  - destruct (InstLevelAttribute (nm E) n) as [l|] eqn:El.
    + intros [= <-]. specialize (Hlevel n l El).
      rewrite toInt_id; lia.
    + intros [= <-]. destruct (options.instLevelInputOnly _); lia.
  - destruct (options.quantRepMode (opts E)); simpl; try done.
    + destruct (d_rep_score s !! n) as [g|] eqn:Eg; intros [= <-];
        [specialize (Hgen n g Eg)|]; lia.
    + intros [= <-]. specialize (Hdepth n). lia.
Qed.

Lemma selectLoop_ext (f g : Node -> Res Z) (l : list Node)
    (rb : option Node) (rs : Z) :
  (forall n, n ∈ l -> f n = g n) ->
  selectLoop f l rb rs = selectLoop g l rb rs.
Proof.
  revert rb rs. induction l as [|n l IH]; intros rb rs H; [done|].
  cbn [selectLoop]. rewrite (H n) by left.
  destruct (g n) as [z|]; [|done]. cbn [mbind Res_bind].
  destruct (_ && _); apply IH; intros m Hm; apply H; by right.
Qed.

Lemma selectLoop_total (f : Node -> Res Z) (l : list Node)
    (rb : option Node) (rs : Z) :
  (forall n, n ∈ l -> exists z, f n = Ok z) ->
  exists w ws, selectLoop f l rb rs = Ok (w, ws).
Proof.
  revert rb rs. induction l as [|n l IH]; intros rb rs H; [by eexists _, _|].
  cbn [selectLoop]. destruct (H n) as [z ->]; [left|].
  cbn [mbind Res_bind].
  destruct (_ && _); apply IH; intros m Hm; apply H; by right.
Qed.

(** What the loop holds at the end came from the class or was held at
    the start. *)
Lemma selectLoop_member (f : Node -> Res Z) (l : list Node)
    (rb : option Node) (rs : Z) (w : Node) (ws : Z) :
  selectLoop f l rb rs = Ok (Some w, ws) -> w ∈ l \/ rb = Some w.
Proof.
  revert rb rs. induction l as [|n l IH]; intros rb rs H.
  - right. simpl in H. congruence.
  - cbn [selectLoop] in H. destruct (f n) as [z|]; [|done].
    cbn [mbind Res_bind] in H.
    destruct (_ && _); apply IH in H as [H|H].
    + left. by right.
    + left. injection H as ->. left.
    + left. by right.
    + by right.
Qed.

(** When every member is rejected the loop changes nothing. *)
Lemma selectLoop_all_rejected (f : Node -> Res Z) (l : list Node)
    (rb : option Node) (rs : Z) :
  (forall n, n ∈ l -> f n = Ok (-2)) ->
  selectLoop f l rb rs = Ok (rb, rs).
Proof.
  revert rb rs. induction l as [|n l IH]; intros rb rs H; [done|].
  cbn [selectLoop]. rewrite (H n) by left. cbn [mbind Res_bind].
  simpl. apply IH. intros m Hm. apply H. by right.
Qed.

(** The cache-miss branch in terms of the worded guard. *)
Lemma findBestSelection_unfold (E : Env) (a : Node) (q : option Node)
    (index : Z) (r : Node) (v_tn : TypeNode) (s : State)
    (eqc : list Node) (w : option Node) (ws : Z) :
  getEquivalenceClass E r [] = Ok eqc ->
  selectLoop (fun n => getRepScore E s n q index v_tn) eqc None (-1) =
    Ok (w, ws) ->
  findBestSelection E a q index r v_tn s =
    match firstNestedMember (default r w) eqc with
    | None => AssertionFailure
    | Some t =>
        Assert (isSubtypeOf (nm E) (getType (nm E) t) v_tn) ;;
        Ok (t, storeChoice v_tn r t s)
    end.
Proof.
  intros He Hl. unfold findBestSelection. rewrite He. cbn [mbind Res_bind].
  rewrite Hl. cbn [mbind Res_bind]. by rewrite getInstance_fresh.
Qed.

Lemma findBestSelection_Ok_inv (E : Env) (a : Node) (q : option Node)
    (index : Z) (r : Node) (v_tn : TypeNode) (s s' : State) (t : Node) :
  findBestSelection E a q index r v_tn s = Ok (t, s') ->
  exists eqc w ws,
    getEquivalenceClass E r [] = Ok eqc /\
    selectLoop (fun n => getRepScore E s n q index v_tn) eqc None (-1) =
      Ok (w, ws) /\
    firstNestedMember (default r w) eqc = Some t /\
    isSubtypeOf (nm E) (getType (nm E) t) v_tn = true /\
    s' = storeChoice v_tn r t s.
Proof.
  intros H. pose proof H as H0. unfold findBestSelection in H0.
  apply bind_Ok_inv in H0 as (eqc & He & H0).
  apply bind_Ok_inv in H0 as ([w ws] & Hl & _).
  rewrite (findBestSelection_unfold _ _ _ _ _ _ _ _ _ _ He Hl) in H.
  exists eqc, w, ws. split; [done|]. split; [done|].
  destruct (firstNestedMember (default r w) eqc) as [t'|]; [|done].
  destruct (isSubtypeOf (nm E) (getType (nm E) t') v_tn) eqn:Ht; [|done].
  simpl in H. injection H as -> <-. done.
Qed.

(** A call that gets past the opening assertion and the model mapping in
    a caching mode, with [r] settled and the variable type known. *)
Lemma getInternalRepresentative_unfold (E : Env) (a : Node)
    (q : option Node) (index : Z) (s : State) (r : Node) (v_tn : TypeNode) :
  options.quantRepMode (opts E) ≠ options.EE ->
  quantifierOk q = true ->
  mapFromModel E (getRepresentative E a) = Ok r ->
  variableType E a q index = Ok v_tn ->
  getInternalRepresentative E a q index s =
    match default ∅ (d_int_rep s !! v_tn) !! r with
    | Some itir => Ok (itir, touch v_tn s)
    | None =>
        findBestSelection E a q index r v_tn (touch v_tn s)
    end.
Proof.
  intros Hmode Hq Hr Hv. unfold getInternalRepresentative, lookupOrSelect.
  rewrite Hq, Hr. cbn [Assert mbind Res_bind].
  rewrite Hv. cbn [mbind Res_bind]. rewrite touch_lookup.
  by destruct (options.quantRepMode (opts E)).
Qed.

Lemma getInternalRepresentative_Ok_inv (E : Env) (a : Node)
    (q : option Node) (index : Z) (s s' : State) (t : Node) :
  getInternalRepresentative E a q index s = Ok (t, s') ->
  quantifierOk q = true /\
  exists r, mapFromModel E (getRepresentative E a) = Ok r /\
    ((options.quantRepMode (opts E) = options.EE /\ t = r /\ s' = s) \/
     (options.quantRepMode (opts E) ≠ options.EE /\
      exists v_tn, variableType E a q index = Ok v_tn /\
        ((default ∅ (d_int_rep s !! v_tn) !! r = Some t /\
          s' = touch v_tn s) \/
         (default ∅ (d_int_rep s !! v_tn) !! r = None /\
          findBestSelection E a q index r v_tn (touch v_tn s) =
            Ok (t, s'))))).
Proof.
  intros H. pose proof H as H0. unfold getInternalRepresentative in H0.
  apply bind_Ok_inv in H0 as ([] & Hq%Assert_Ok & H0).
  apply bind_Ok_inv in H0 as (r & Hr & H0).
  split; [done|]. exists r. split; [done|].
  destruct (decide (options.quantRepMode (opts E) = options.EE)) as [Hm|Hm].
  - left. unfold lookupOrSelect in H0. rewrite Hm in H0.
    injection H0 as -> ->. done.
  - right. split; [done|].
    assert (exists v_tn, variableType E a q index = Ok v_tn) as [v_tn Hv].
    { unfold lookupOrSelect in H0.
      destruct (options.quantRepMode (opts E)); [done| |];
        apply bind_Ok_inv in H0 as (v & Hv & _); eauto. }
    exists v_tn. split; [done|].
    rewrite (getInternalRepresentative_unfold _ _ _ _ _ _ _ Hm Hq Hr Hv) in H.
    destruct (default ∅ (d_int_rep s !! v_tn) !! r) as [itir|] eqn:El.
    + left. injection H as -> <-. done.
    + right. done.
Qed.

(** ** The instance guard inside the selector *)

(** C6.  [getInstance] on a sound memo table, and so on the fresh table
    it is called with, answers with the first class member that a
    depth-first, left-to-right search meets among the candidate's proper
    subterms, else with the candidate if it is in the class, else with
    null.  On a cache miss whose scored winner [w] has a class member
    nested inside it, the call hands back that nested member [t], a proper
    subterm of [w] and so not [w], provided [t] passes the type
    assertion. *)
Theorem getInstance_first_nested_member :
  (forall (candidate : Node) (eqc : list Node)
          (cache : gmap Node (option Node)),
     cacheSound eqc cache ->
     (getInstance candidate eqc cache).1 = firstNestedMember candidate eqc) /\
  (forall (candidate : Node) (eqc : list Node),
     (getInstance candidate eqc ∅).1 = firstNestedMember candidate eqc) /\
  (forall (E : Env) (a : Node) (q : option Node) (index : Z) (s : State)
          (r : Node) (v_tn : TypeNode) (eqc : list Node) (w : Node) (ws : Z)
          (m : Node),
     options.quantRepMode (opts E) ≠ options.EE ->
     quantifierOk q = true ->
     mapFromModel E (getRepresentative E a) = Ok r ->
     variableType E a q index = Ok v_tn ->
     default ∅ (d_int_rep s !! v_tn) !! r = None ->
     getEquivalenceClass E r [] = Ok eqc ->
     selectLoop (fun n => getRepScore E s n q index v_tn) eqc None (-1) =
       Ok (Some w, ws) ->
     m ∈ properSubterms w -> m ∈ eqc ->
     exists t,
       firstNestedMember w eqc = Some t /\
       t ∈ properSubterms w /\ t ∈ eqc /\ t ≠ w /\
       getInternalRepresentative E a q index s =
         (Assert (isSubtypeOf (nm E) (getType (nm E) t) v_tn) ;;
          Ok (t, storeChoice v_tn r t s))).
Proof.
  split; [|split].
  - intros candidate eqc cache Hs.
    rewrite firstNestedMember_find. by apply getInstance_sound.
  - intros candidate eqc. apply getInstance_fresh.
  - intros E a q index s r v_tn eqc w ws m Hmode Hq Hr Hv Hmiss He Hl Hm Hc.
    destruct (firstNestedMember_nested eqc w m Hm Hc)
      as (t & Ht & Ht1 & Ht2 & Ht3).
    exists t. repeat split; try done.
    rewrite (getInternalRepresentative_unfold _ _ _ _ _ _ _ Hmode Hq Hr Hv).
    rewrite Hmiss.
    rewrite (findBestSelection_unfold _ _ _ _ _ _ _ eqc (Some w) ws He).
    + simpl. rewrite Ht. by rewrite storeChoice_touch.
    + rewrite <- Hl. apply selectLoop_ext. intros n _.
      apply getRepScore_touch.
Qed.

(** First-use scoring with [f(a)] chosen in an earlier round and [a]
    never: [f(a)] is the scored winner of the class [f(a), a], and the
    call returns the nested [a]. *)
Lemma getInstance_first_nested_member_witness :
  let E :=
    sample.world sample.firstMode [] []
      (sample.oneClass sample.fa [sample.fa; sample.a]) None in
  let s :=
    {| d_int_rep := ∅; d_rep_score := {[sample.fa := 0]};
       d_reset_count := 1 |} in
  selectLoop (fun n => getRepScore E s n None 0 sample.INTEGER)
    [sample.fa; sample.a] None (-1) = Ok (Some sample.fa, 0) /\
  exists t,
    firstNestedMember sample.fa [sample.fa; sample.a] = Some t /\
    t ∈ properSubterms sample.fa /\ t ∈ [sample.fa; sample.a] /\
    t ≠ sample.fa /\
    getInternalRepresentative E sample.fa None 0 s =
      (Assert (isSubtypeOf (nm E) (getType (nm E) t) sample.INTEGER) ;;
       Ok (t, storeChoice sample.INTEGER sample.fa t s)).
Proof.
  split; [reflexivity|].
  apply (proj2 (proj2 getInstance_first_nested_member)
           (sample.world sample.firstMode [] []
              (sample.oneClass sample.fa [sample.fa; sample.a]) None)
           sample.fa None 0
           {| d_int_rep := ∅; d_rep_score := {[sample.fa := 0]};
              d_reset_count := 1 |}
           sample.fa sample.INTEGER [sample.fa; sample.a] sample.fa 0
           sample.a);
    try reflexivity; try discriminate.
  - left.
  - right. left.
Defined.

(** The same round, run: the nested [a] comes back. *)
Example nested_member_returned :
  fst <$> getInternalRepresentative
    (sample.world sample.firstMode [] []
       (sample.oneClass sample.fa [sample.fa; sample.a]) None)
    sample.fa None 0
    {| d_int_rep := ∅; d_rep_score := {[sample.fa := 0]};
       d_reset_count := 1 |} = Ok sample.a.
Proof. vm_compute. reflexivity. Qed.

(** ** Rejection of every member *)

(** C2, as the code has it.  On a cache miss on which every member of the
    class is scored -2, the instance guard is applied to the raw
    representative [r]: the call hands back the guard's answer [t] if [t]
    passes the type assertion and halts otherwise; [t] is [r] itself when
    no class member is a proper subterm of [r]. *)
Theorem getInternalRepresentative_all_rejected (E : Env) (a : Node)
    (q : option Node) (index : Z) (s : State) (r : Node) (v_tn : TypeNode)
    (eqc : list Node) :
  options.quantRepMode (opts E) ≠ options.EE ->
  quantifierOk q = true ->
  mapFromModel E (getRepresentative E a) = Ok r ->
  variableType E a q index = Ok v_tn ->
  default ∅ (d_int_rep s !! v_tn) !! r = None ->
  getEquivalenceClass E r [] = Ok eqc ->
  (forall n, n ∈ eqc -> getRepScore E s n q index v_tn = Ok (-2)) ->
  exists t,
    firstNestedMember r eqc = Some t /\
    getInternalRepresentative E a q index s =
      (Assert (isSubtypeOf (nm E) (getType (nm E) t) v_tn) ;;
       Ok (t, storeChoice v_tn r t s)) /\
    ((forall m, m ∈ properSubterms r -> m ∉ eqc) -> t = r).
Proof.
  intros Hmode Hq Hr Hv Hmiss He Hrej.
  assert (r ∈ eqc) as Hin.
  { by apply (proj2 (getEquivalenceClass_self_member_aux E r) [] eqc). }
  destruct (firstNestedMember_is_Some eqc r Hin) as [t Ht].
  exists t. split; [done|]. split.
  - rewrite (getInternalRepresentative_unfold _ _ _ _ _ _ _ Hmode Hq Hr Hv).
    rewrite Hmiss.
    rewrite (findBestSelection_unfold _ _ _ _ _ _ _ eqc None (-1) He).
    + simpl. rewrite Ht. by rewrite storeChoice_touch.
    + apply selectLoop_all_rejected. intros n Hn.
      rewrite getRepScore_touch. by apply Hrej.
  - intros Hplain. rewrite (firstNestedMember_plain eqc r Hplain Hin) in Ht.
    congruence.
Qed.

(** With counterexample-guided instantiation on and the lone, unregistered
    [a] carrying an instantiation constant, [a] is rejected and comes back
    as the raw representative. *)
Lemma getInternalRepresentative_all_rejected_witness :
  let E := sample.world sample.cbqiMode [sample.a] [] sample.emptyEngine None in
  exists t,
    firstNestedMember sample.a [sample.a] = Some t /\
    getInternalRepresentative E sample.a None 0 initial =
      (Assert (isSubtypeOf (nm E) (getType (nm E) t) sample.INTEGER) ;;
       Ok (t, storeChoice sample.INTEGER sample.a t initial)) /\
    ((forall m, m ∈ properSubterms sample.a -> m ∉ [sample.a]) ->
     t = sample.a).
Proof.
  apply (getInternalRepresentative_all_rejected
           (sample.world sample.cbqiMode [sample.a] [] sample.emptyEngine None)
           sample.a None 0 initial sample.a sample.INTEGER [sample.a]);
    try reflexivity; try discriminate.
  intros n Hn. apply list_elem_of_singleton in Hn as ->. reflexivity.
Defined.

(** C2, as worded, fails: in the class [f(a), a] with representative
    [f(a)] and both members rejected for their instantiation constants, the
    call returns the nested [a], not the raw representative. *)
Lemma all_rejected_returns_nested_member :
  let E :=
    sample.world sample.cbqiMode [sample.fa; sample.a] []
      (sample.oneClass sample.fa [sample.fa; sample.a]) None in
  mapFromModel E (getRepresentative E sample.fa) = Ok sample.fa /\
  default ∅ (d_int_rep initial !! sample.INTEGER) !! sample.fa = None /\
  getEquivalenceClass E sample.fa [] = Ok [sample.fa; sample.a] /\
  getRepScore E initial sample.fa None 0 sample.INTEGER = Ok (-2) /\
  getRepScore E initial sample.a None 0 sample.INTEGER = Ok (-2) /\
  fst <$> getInternalRepresentative E sample.fa None 0 initial =
    Ok sample.a /\
  sample.a ≠ sample.fa.
Proof. repeat split; try (vm_compute; reflexivity). discriminate. Qed.

(** ** Type soundness *)

Lemma cacheWellTyped_initial (N : NodeManager) : cacheWellTyped N initial.
Proof.
  intros v_tn m r t H.
  change ((∅ : gmap TypeNode (gmap Node Node)) !! v_tn = Some m) in H.
  by rewrite lookup_empty in H.
Qed.

Lemma cacheWellTyped_reset (N : NodeManager) (e : Effort) (s : State) :
  cacheWellTyped N (reset e s).2.
Proof.
  intros v_tn m r t H.
  change ((∅ : gmap TypeNode (gmap Node Node)) !! v_tn = Some m) in H.
  by rewrite lookup_empty in H.
Qed.

Lemma cacheWellTyped_touch (N : NodeManager) (v_tn : TypeNode) (s : State) :
  cacheWellTyped N s -> cacheWellTyped N (touch v_tn s).
Proof.
  intros Hs v m r t. unfold touch.
  destruct (d_int_rep s !! v_tn) eqn:E; [apply Hs|]. simpl.
  rewrite lookup_insert. case_decide as Hd.
  - intros [= <-]. by rewrite lookup_empty.
  - apply Hs.
Qed.

Lemma cacheWellTyped_storeChoice (N : NodeManager) (v_tn : TypeNode)
    (r t : Node) (s : State) :
  isSubtypeOf N (getType N t) v_tn = true ->
  cacheWellTyped N s -> cacheWellTyped N (storeChoice v_tn r t s).
Proof.
  intros Ht Hs v m r' t'. simpl.
  rewrite lookup_insert. case_decide as Hd; [|apply Hs].
  subst v. intros [= <-].
  rewrite lookup_insert. case_decide as Hd'.
  - by intros [= <-].
  - destruct (d_int_rep s !! v_tn) as [m0|] eqn:E; simpl.
    + by apply Hs.
    + by rewrite lookup_empty.
Qed.

(** A call that returns keeps the cache well typed, in every mode. *)
Lemma getInternalRepresentative_cacheWellTyped (E : Env) (a : Node)
    (q : option Node) (index : Z) (s s' : State) (t : Node) :
  cacheWellTyped (nm E) s ->
  getInternalRepresentative E a q index s = Ok (t, s') ->
  cacheWellTyped (nm E) s'.
Proof.
  intros Hs H.
  apply getInternalRepresentative_Ok_inv in H
    as (_ & r & _ & [(_ & _ & ->) | (_ & v_tn & _ & Hcase)]); [done|].
  destruct Hcase as [(_ & ->) | (_ & Hsel)].
  - by apply cacheWellTyped_touch.
  - apply findBestSelection_Ok_inv in Hsel
      as (eqc & w & ws & _ & _ & _ & Ht & ->).
    by apply cacheWellTyped_storeChoice, cacheWellTyped_touch.
Qed.

(** So does a whole session over one set of term facts. *)
Lemma run_cacheWellTyped (N : NodeManager) (calls : list Call) :
  Forall (fun c => match c with
                   | CallReset _ => True
                   | CallGetInternalRepresentative E _ _ _ => nm E = N
                   end) calls ->
  forall s s', cacheWellTyped N s -> run calls s = Ok s' ->
               cacheWellTyped N s'.
Proof.
  induction 1 as [|c calls Hc _ IH]; intros s s' Hs Hrun.
  - simpl in Hrun. by injection Hrun as <-.
  - destruct c as [e | E a q index]; cbn [run] in Hrun.
    + apply (IH (reset e s).2); [apply cacheWellTyped_reset | done].
    + apply bind_Ok_inv in Hrun as ([t s1] & Hcall & Hrun). subst N.
      apply (IH s1); [|done].
      by apply (getInternalRepresentative_cacheWellTyped E a q index s s1 t).
Qed.

(** X23.  How far the type of the result is secured.  In a caching mode,
    from a state whose cached choices fit their variable types (the initial state, and every state
    reached from it), a call that returns hands back a term whose type is
    a subtype of the target variable type and leaves such a state; and the
    call does return when every member of the enumerated class has a type
    that fits the target type. *)
Theorem getInternalRepresentative_type_sound (E : Env) (a : Node)
    (q : option Node) (index : Z) (s : State) :
  options.quantRepMode (opts E) ≠ options.EE ->
  cacheWellTyped (nm E) s ->
  (forall (t : Node) (s' : State),
     getInternalRepresentative E a q index s = Ok (t, s') ->
     exists v_tn,
       variableType E a q index = Ok v_tn /\
       isSubtypeOf (nm E) (getType (nm E) t) v_tn = true /\
       cacheWellTyped (nm E) s') /\
  (forall (r : Node) (v_tn : TypeNode) (eqc : list Node),
     quantifierOk q = true ->
     mapFromModel E (getRepresentative E a) = Ok r ->
     variableType E a q index = Ok v_tn ->
     getEquivalenceClass E r [] = Ok eqc ->
     (forall m, m ∈ eqc ->
        isSubtypeOf (nm E) (getType (nm E) m) v_tn = true) ->
     exists (t : Node) (s' : State),
       getInternalRepresentative E a q index s = Ok (t, s')).
Proof.
  intros Hmode Hs. split.
  - intros t s' H.
    apply getInternalRepresentative_Ok_inv in H
      as (Hq & r & Hr & [(Hee & _) | (_ & v_tn & Hv & Hcase)]); [done|].
    exists v_tn. split; [done|].
    destruct Hcase as [(Hhit & ->) | (Hmiss & Hsel)].
    + split; [|by apply cacheWellTyped_touch].
      destruct (d_int_rep s !! v_tn) as [m|] eqn:Em; simpl in Hhit.
      * by apply (Hs v_tn m r t).
      * by rewrite lookup_empty in Hhit.
    + apply findBestSelection_Ok_inv in Hsel
        as (eqc & w & ws & _ & _ & _ & Ht & ->).
      split; [done|].
      by apply cacheWellTyped_storeChoice, cacheWellTyped_touch.
  - intros r v_tn eqc Hq Hr Hv He Htyped.
    rewrite (getInternalRepresentative_unfold _ _ _ _ _ _ _ Hmode Hq Hr Hv).
    destruct (default ∅ (d_int_rep s !! v_tn) !! r) as [itir|];
      [by eexists _, _|].
    destruct (selectLoop_total
                (fun n => getRepScore E (touch v_tn s) n q index v_tn)
                eqc None (-1)) as (w & ws & Hl).
    { intros n _. by apply getRepScore_total. }
    rewrite (findBestSelection_unfold _ _ _ _ _ _ _ eqc w ws He Hl).
    assert (default r w ∈ eqc) as Hin.
    { destruct w as [w|]; simpl.
      - by apply selectLoop_member in Hl as [Hl|Hl].
      - by apply (proj2 (getEquivalenceClass_self_member_aux E r) [] eqc). }
    destruct (firstNestedMember_is_Some eqc _ Hin) as [t Ht].
    rewrite Ht.
    rewrite (Htyped t (firstNestedMember_member eqc _ t Ht)).
    by eexists _, _.
Qed.

(** The class [f(a), a, b] of integer terms, queried for [a] under depth
    scoring from the initial state: the call returns, with an integer. *)
Lemma getInternalRepresentative_type_sound_witness :
  let E :=
    sample.world sample.depthMode [] []
      (sample.oneClass sample.fa [sample.fa; sample.a; sample.b]) None in
  (forall (t : Node) (s' : State),
     getInternalRepresentative E sample.a None 0 initial = Ok (t, s') ->
     exists v_tn,
       variableType E sample.a None 0 = Ok v_tn /\
       isSubtypeOf (nm E) (getType (nm E) t) v_tn = true /\
       cacheWellTyped (nm E) s') /\
  exists (t : Node) (s' : State),
    getInternalRepresentative E sample.a None 0 initial = Ok (t, s').
Proof.
  pose proof (getInternalRepresentative_type_sound
                (sample.world sample.depthMode [] []
                   (sample.oneClass sample.fa
                      [sample.fa; sample.a; sample.b]) None)
                sample.a None 0 initial) as H.
  destruct H as [H1 H2]; [discriminate | apply cacheWellTyped_initial |].
  split; [exact H1|].
  apply (H2 sample.fa sample.INTEGER [sample.fa; sample.a; sample.b]);
    try reflexivity.
  intros m Hm. rewrite !elem_of_cons, elem_of_nil in Hm.
  destruct Hm as [->|[->|[->|[]]]]; reflexivity.
Defined.

(** C1 does not hold of the code: the assertion on the type of [r_best]
    fails on inputs the selection itself lets through.  In depth mode,
    with no filter but the type filter at work, the integer [g(y)] is
    queried; its class is [g(y), y] with the real [y] nested in it.  The
    real [y] is rejected for its type and [g(y)], scored 1, wins; the
    instance guard, which does not look at types, replaces it by [y], and
    the assertion halts the call.  The same happens on the fallback: the
    integer [a] carries an instantiation constant and its class [y, a]
    has the real [y] as representative, every member is rejected, the
    raw representative is taken, and the assertion halts the call. *)
Theorem type_assertion_fails_after_guard_or_fallback :
  let E :=
    sample.world sample.depthMode [] []
      (sample.oneClass sample.gy [sample.gy; sample.y]) None in
  let E' :=
    sample.world sample.cbqiMode [sample.a] []
      (sample.oneClass sample.y [sample.y; sample.a]) None in
  (variableType E sample.gy None 0 = Ok sample.INTEGER /\
   getEquivalenceClass E sample.gy [] = Ok [sample.gy; sample.y] /\
   getRepScore E initial sample.gy None 0 sample.INTEGER = Ok 1 /\
   getRepScore E initial sample.y None 0 sample.INTEGER = Ok (-2) /\
   (getInstance sample.gy [sample.gy; sample.y] ∅).1 = Some sample.y /\
   isSubtypeOf (nm E) (getType (nm E) sample.y) sample.INTEGER = false /\
   getInternalRepresentative E sample.gy None 0 initial =
     AssertionFailure) /\
  (variableType E' sample.a None 0 = Ok sample.INTEGER /\
   mapFromModel E' (getRepresentative E' sample.a) = Ok sample.y /\
   getEquivalenceClass E' sample.y [] = Ok [sample.y; sample.a] /\
   getRepScore E' initial sample.y None 0 sample.INTEGER = Ok (-2) /\
   getRepScore E' initial sample.a None 0 sample.INTEGER = Ok (-2) /\
   getInternalRepresentative E' sample.a None 0 initial =
     AssertionFailure).
Proof. repeat split; vm_compute; reflexivity. Qed.

(** ** Repeated calls within a generation *)

Lemma touch_is_Some (v_tn : TypeNode) (s : State) :
  is_Some (d_int_rep (touch v_tn s) !! v_tn).
Proof.
  unfold touch. destruct (d_int_rep s !! v_tn) eqn:E; simpl.
  - by rewrite E.
  - by rewrite lookup_insert_eq.
Qed.

Lemma storeChoice_is_Some (v_tn : TypeNode) (r t : Node) (s : State) :
  is_Some (d_int_rep (storeChoice v_tn r t s) !! v_tn).
Proof. simpl. by rewrite lookup_insert_eq. Qed.

(** C3.  A call that returned [t] and left the state [s1], repeated with
    the same arguments and surroundings and nothing in between, returns
    [t] again and leaves [s1] as it is; in a caching mode [s1] holds [t]
    under the variable type and the representative, which is the entry
    the second call finds. *)
Theorem getInternalRepresentative_idempotent (E : Env) (a : Node)
    (q : option Node) (index : Z) (s s1 : State) (t : Node) :
  getInternalRepresentative E a q index s = Ok (t, s1) ->
  getInternalRepresentative E a q index s1 = Ok (t, s1) /\
  (options.quantRepMode (opts E) ≠ options.EE ->
   exists (r : Node) (v_tn : TypeNode),
     mapFromModel E (getRepresentative E a) = Ok r /\
     variableType E a q index = Ok v_tn /\
     default ∅ (d_int_rep s1 !! v_tn) !! r = Some t).
Proof.
  intros H. pose proof H as H0.
  apply getInternalRepresentative_Ok_inv in H0
    as (Hq & r & Hr & [(Hee & -> & ->) | (Hmode & v_tn & Hv & Hcase)]).
  { split; [done | by intros []]. }
  assert (default ∅ (d_int_rep s1 !! v_tn) !! r = Some t /\
          touch v_tn s1 = s1) as [Hl Ht].
  { destruct Hcase as [(Hhit & ->) | (Hmiss & Hsel)].
    - rewrite touch_lookup. split; [done|].
      apply touch_present, touch_is_Some.
    - apply findBestSelection_Ok_inv in Hsel
        as (eqc & w & ws & _ & _ & _ & _ & ->).
      split; [apply storeChoice_lookup|].
      apply touch_present, storeChoice_is_Some. }
  split.
  - rewrite (getInternalRepresentative_unfold _ _ _ _ _ _ _ Hmode Hq Hr Hv).
    by rewrite Hl, Ht.
  - intros _. by exists r, v_tn.
Qed.

(** The class [f(a), a, b] queried for [b] twice from the initial state. *)
Lemma getInternalRepresentative_idempotent_witness :
  let E :=
    sample.world sample.depthMode [] []
      (sample.oneClass sample.fa [sample.fa; sample.a; sample.b]) None in
  let s1 := storeChoice sample.INTEGER sample.fa sample.a initial in
  getInternalRepresentative E sample.b None 0 initial = Ok (sample.a, s1) /\
  getInternalRepresentative E sample.b None 0 s1 = Ok (sample.a, s1).
Proof.
  assert (getInternalRepresentative
            (sample.world sample.depthMode [] []
               (sample.oneClass sample.fa [sample.fa; sample.a; sample.b])
               None)
            sample.b None 0 initial =
          Ok (sample.a,
              storeChoice sample.INTEGER sample.fa sample.a initial)) as H.
  { vm_compute. reflexivity. }
  split; [exact H|].
  exact (proj1 (getInternalRepresentative_idempotent _ _ _ _ _ _ _ H)).
Defined.

(** ** Reset and the first-chosen table *)

Lemma getInternalRepresentative_rep_score (E : Env) (a : Node)
    (q : option Node) (index : Z) (s s' : State) (t n : Node) (G : Z) :
  getInternalRepresentative E a q index s = Ok (t, s') ->
  d_rep_score s !! n = Some G ->
  d_rep_score s' !! n = Some G.
Proof.
  intros H Hn.
  apply getInternalRepresentative_Ok_inv in H
    as (_ & r & _ & [(_ & _ & ->) | (_ & v_tn & _ & Hcase)]); [done|].
  destruct Hcase as [(_ & ->) | (_ & Hsel)].
  - by rewrite touch_rep_score.
  - apply findBestSelection_Ok_inv in Hsel
      as (eqc & w & ws & _ & _ & _ & _ & ->).
    simpl. rewrite touch_rep_score, touch_reset_count.
    destruct (d_rep_score s !! t) eqn:Et; [done|].
    rewrite lookup_insert_ne; [done | congruence].
Qed.

Lemma getInternalRepresentative_reset_count (E : Env) (a : Node)
    (q : option Node) (index : Z) (s s' : State) (t : Node) :
  getInternalRepresentative E a q index s = Ok (t, s') ->
  d_reset_count s' = d_reset_count s.
Proof.
  intros H.
  apply getInternalRepresentative_Ok_inv in H
    as (_ & r & _ & [(_ & _ & ->) | (_ & v_tn & _ & Hcase)]); [done|].
  destruct Hcase as [(_ & ->) | (_ & Hsel)].
  - by rewrite touch_reset_count.
  - apply findBestSelection_Ok_inv in Hsel
      as (eqc & w & ws & _ & _ & _ & _ & ->).
    simpl. by rewrite touch_reset_count.
Qed.

(** C7, as the code has it.  [reset] empties the whole cache and hands
    the first-chosen table on as it is; it adds exactly one to the
    generation counter as long as the counter is an [int] below
    [INT_MAX].  Along any session of resets and selections that runs to
    its end, a term recorded as first chosen at generation [G] stays
    recorded at [G]. *)
Theorem reset_keeps_first_chosen :
  (forall (e : Effort) (s : State),
     -2147483648 <= d_reset_count s < INT_MAX ->
     reset e s =
       (true,
        {| d_int_rep := ∅;
           d_rep_score := d_rep_score s;
           d_reset_count := d_reset_count s + 1 |})) /\
  (forall (e : Effort) (s : State),
     d_int_rep (reset e s).2 = ∅ /\
     d_rep_score (reset e s).2 = d_rep_score s) /\
  (forall (calls : list Call) (s s' : State) (n : Node) (G : Z),
     d_rep_score s !! n = Some G ->
     run calls s = Ok s' ->
     d_rep_score s' !! n = Some G).
Proof.
  split; [|split; [done|]].
  - intros e s Hrange. unfold reset. rewrite toInt_id; [done|].
    unfold INT_MAX in *. lia.
  - induction calls as [|c calls IH]; intros s s' n G Hn Hrun.
    + simpl in Hrun. by injection Hrun as <-.
    + destruct c as [e | E a q index]; cbn [run] in Hrun.
      * by apply (IH (reset e s).2).
      * apply bind_Ok_inv in Hrun as ([t s1] & Hcall & Hrun).
        apply (IH s1); [|done].
        by apply (getInternalRepresentative_rep_score E a q index s s1 t).
Qed.

(** [a] is chosen in generation 0; two resets and a fresh selection of
    [a] in generation 2 later, [a] is still recorded at 0. *)
Lemma reset_keeps_first_chosen_witness :
  let E :=
    sample.world sample.depthMode [] []
      (sample.oneClass sample.fa [sample.fa; sample.a; sample.b]) None in
  let s0 := storeChoice sample.INTEGER sample.fa sample.a initial in
  let s2 :=
    {| d_int_rep := {[sample.INTEGER := {[sample.fa := sample.a]}]};
       d_rep_score := {[sample.a := 0]};
       d_reset_count := 2 |} in
  getInternalRepresentative E sample.a None 0 initial = Ok (sample.a, s0) /\
  d_rep_score s0 !! sample.a = Some 0 /\
  reset EFFORT_FULL s0 =
    (true,
     {| d_int_rep := ∅; d_rep_score := d_rep_score s0;
        d_reset_count := d_reset_count s0 + 1 |}) /\
  run [CallReset EFFORT_FULL; CallReset EFFORT_LAST_CALL;
       CallGetInternalRepresentative E sample.a None 0] s0 = Ok s2 /\
  d_rep_score s2 !! sample.a = Some 0.
Proof.
  assert (run [CallReset EFFORT_FULL; CallReset EFFORT_LAST_CALL;
               CallGetInternalRepresentative
                 (sample.world sample.depthMode [] []
                    (sample.oneClass sample.fa
                       [sample.fa; sample.a; sample.b]) None)
                 sample.a None 0]
            (storeChoice sample.INTEGER sample.fa sample.a initial) =
          Ok {| d_int_rep := {[sample.INTEGER := {[sample.fa := sample.a]}]};
                d_rep_score := {[sample.a := 0]};
                d_reset_count := 2 |}) as Hrun.
  { vm_compute. reflexivity. }
  split; [vm_compute; reflexivity|].
  split; [vm_compute; reflexivity|].
  split.
  { apply (proj1 reset_keeps_first_chosen EFFORT_FULL
             (storeChoice sample.INTEGER sample.fa sample.a initial)).
    unfold INT_MAX. simpl. lia. }
  split; [exact Hrun|].
  apply (proj2 (proj2 reset_keeps_first_chosen) _ _ _ sample.a 0
           (eq_refl : d_rep_score
                        (storeChoice sample.INTEGER sample.fa sample.a
                           initial) !! sample.a = Some 0)
           Hrun).
Defined.

(** C7, as worded, fails at the top of the [int] range: the reset of a
    state whose counter is [INT_MAX] leaves the counter at -2147483648,
    not at 2147483648. *)
Lemma reset_wraps_at_INT_MAX :
  let s := {| d_int_rep := ∅; d_rep_score := ∅; d_reset_count := INT_MAX |} in
  d_reset_count s + 1 = 2147483648 /\
  d_reset_count (reset EFFORT_FULL s).2 = -2147483648.
Proof. split; reflexivity. Qed.

(** ** More on the instance guard *)

Section guard_answers.

Variable eqc : list Node.

Let inClass (m : Node) : bool := bool_decide (m ∈ eqc).

Lemma find_concat_subterms (cs : list Node) (t : Node) :
  find inClass (concat (map subterms cs)) = Some t ->
  exists c, c ∈ cs /\ find inClass (subterms c) = Some t.
Proof.
  induction cs as [|c cs IH]; simpl; [done|].
  rewrite find_over_app.
  destruct (find inClass (subterms c)) as [x|] eqn:E.
  - intros [= ->]. exists c. split; [left | done].
  - intros H. destruct (IH H) as (c' & Hc' & Ht).
    exists c'. split; [by right | done].
Qed.

(** What the search finds first has no class member below it. *)
Lemma find_innermost (n t : Node) :
  find inClass (subterms n) = Some t ->
  find inClass (properSubterms t) = None.
Proof.
  induction n as [k id cs IH] using Node_ind'. simpl.
  rewrite find_over_app.
  destruct (find inClass (concat (map subterms cs))) as [x|] eqn:E.
  - intros [= ->]. apply find_concat_subterms in E as (c & Hc & Ht).
    rewrite Forall_forall in IH. by apply (IH c Hc).
  - simpl. destruct (inClass (mkNode k id cs)); [|done].
    by intros [= <-].
Qed.

Lemma subterms_self (n : Node) : n ∈ subterms n.
Proof. rewrite subterms_unfold. apply elem_of_app. right. left. Qed.

Lemma firstNestedMember_innermost (n t : Node) :
  firstNestedMember n eqc = Some t ->
  t ∈ subterms n /\ t ∈ eqc /\
  (forall m, m ∈ properSubterms t -> m ∉ eqc) /\
  firstNestedMember t eqc = Some t.
Proof.
  intros H. pose proof H as H0. rewrite firstNestedMember_find in H0.
  pose proof (find_innermost n t H0) as Hin.
  apply find_Some_holds in H0 as [Ht1 Ht2].
  apply bool_decide_eq_true in Ht2.
  assert (forall m, m ∈ properSubterms t -> m ∉ eqc) as Hnone.
  { intros m Hm. rewrite find_None_all in Hin.
    specialize (Hin m Hm). by apply bool_decide_eq_false in Hin. }
  repeat split; try done. by apply firstNestedMember_plain.
Qed.

(** The memoised search never drops an entry and records its answer. *)
Lemma firstInstance_grows (cs : list Node) :
  Forall (fun c => forall cache,
            (forall m v, cache !! m = Some v ->
               (getInstance c eqc cache).2 !! m = Some v) /\
            (getInstance c eqc cache).2 !! c =
              Some (getInstance c eqc cache).1) cs ->
  forall cache m v, cache !! m = Some v ->
    (firstInstance (fun c => getInstance c eqc) cs cache).2 !! m = Some v.
Proof.
  induction 1 as [|c cs Hc _ IH]; intros cache m v Hm; simpl; [done|].
  destruct (Hc cache) as [H1 _]. specialize (H1 m v Hm).
  destruct (getInstance c eqc cache) as [nn cache'] eqn:E. simpl in *.
  destruct nn; [done|]. by apply IH.
Qed.

Lemma getInstance_grows (n : Node) :
  forall cache,
    (forall m v, cache !! m = Some v ->
       (getInstance n eqc cache).2 !! m = Some v) /\
    (getInstance n eqc cache).2 !! n = Some (getInstance n eqc cache).1.
Proof.
  induction n as [k id cs IH] using Node_ind'. intros cache.
  set (n := mkNode k id cs).
  assert (getInstance n eqc cache =
          match cache !! n with
          | Some v => (v, cache)
          | None =>
              let '(nn, cache) :=
                firstInstance (fun c => getInstance c eqc) cs cache in
              match nn with
              | Some _ => (nn, <[n := nn]> cache)
              | None =>
                  if bool_decide (n ∈ eqc)
                  then (Some n, <[n := Some n]> cache)
                  else (None, <[n := None]> cache)
              end
          end) as -> by done.
  destruct (cache !! n) as [v|] eqn:Hl; [done|].
  pose proof (firstInstance_grows cs IH cache) as Hg.
  destruct (firstInstance _ cs cache) as [nn cache'] eqn:E. simpl in Hg.
  assert (forall m v, cache !! m = Some v -> m ≠ n) as Hne
    by (intros m v Hm ->; congruence).
  destruct nn as [x|]; [|case_bool_decide]; simpl;
    (split; [|by rewrite lookup_insert_eq]);
    intros m v Hm; rewrite lookup_insert_ne by (symmetry; by eapply Hne);
    by apply Hg.
Qed.

End guard_answers.

(** X1.  On the fresh table the guard answers null exactly when no subterm
    of the candidate, the candidate included, is in the class; so it is
    null for every candidate when the class is empty. *)
Theorem getInstance_null_iff (n : Node) (eqc : list Node) :
  ((getInstance n eqc ∅).1 = None <->
   forall m, m ∈ subterms n -> m ∉ eqc) /\
  (getInstance n [] ∅).1 = None.
Proof.
  assert (forall l, (getInstance n l ∅).1 = None <->
                    forall m, m ∈ subterms n -> m ∉ l) as H.
  { intros l. rewrite getInstance_fresh, firstNestedMember_find.
    rewrite find_None_all. split; intros H m Hm.
    - specialize (H m Hm). by apply bool_decide_eq_false in H.
    - apply bool_decide_eq_false. by apply H. }
  split; [apply H|]. apply H. intros m _. apply not_elem_of_nil.
Qed.

(** X2.  A non-null answer of the guard is a subterm of the candidate, a
    member of the class, has no class member among its proper subterms,
    and is what the guard answers for itself. *)
Theorem getInstance_innermost (n t : Node) (eqc : list Node) :
  (getInstance n eqc ∅).1 = Some t ->
  t ∈ subterms n /\ t ∈ eqc /\
  (forall m, m ∈ properSubterms t -> m ∉ eqc) /\
  (getInstance t eqc ∅).1 = Some t.
Proof.
  rewrite !getInstance_fresh. apply firstNestedMember_innermost.
Qed.

Lemma getInstance_innermost_witness :
  sample.a ∈ subterms sample.fa /\
  sample.a ∈ [sample.fa; sample.a] /\
  (forall m, m ∈ properSubterms sample.a -> m ∉ [sample.fa; sample.a]) /\
  (getInstance sample.a [sample.fa; sample.a] ∅).1 = Some sample.a.
Proof.
  apply (getInstance_innermost sample.fa sample.a [sample.fa; sample.a]).
  vm_compute. reflexivity.
Defined.

(** X3.  Run on a sound memo table, [getInstance] leaves a sound table
    that still holds every entry it held before and now holds the answer
    for the candidate. *)
Theorem getInstance_memo (n : Node) (eqc : list Node)
    (cache : gmap Node (option Node)) :
  cacheSound eqc cache ->
  cacheSound eqc (getInstance n eqc cache).2 /\
  (getInstance n eqc cache).2 !! n = Some (getInstance n eqc cache).1 /\
  (forall m v, cache !! m = Some v ->
     (getInstance n eqc cache).2 !! m = Some v).
Proof.
  intros Hs. split; [by apply getInstance_sound|].
  destruct (getInstance_grows eqc n cache) as [H1 H2]. by split.
Qed.

(** The table left by a search of [a] is sound and is kept by a search of
    [f(a)], which adds its own answer. *)
Lemma getInstance_memo_witness :
  let cache := (getInstance sample.a [sample.a] ∅).2 in
  cacheSound [sample.a] (getInstance sample.fa [sample.a] cache).2 /\
  (getInstance sample.fa [sample.a] cache).2 !! sample.fa =
    Some (getInstance sample.fa [sample.a] cache).1 /\
  (forall m v, cache !! m = Some v ->
     (getInstance sample.fa [sample.a] cache).2 !! m = Some v).
Proof.
  apply (getInstance_memo sample.fa [sample.a]
           (getInstance sample.a [sample.a] ∅).2).
  apply getInstance_sound, cacheSound_empty.
Defined.

(** ** More on the selection loop *)

(** Where the loop ends: either with what it held at the start, and then
    every member was rejected if it held null, or with a member that was
    not rejected, together with that member's score. *)
Lemma selectLoop_outcome (score : Node -> Res Z) (sc : Node -> Z)
    (l : list Node) :
  (forall n, n ∈ l -> score n = Ok (sc n)) ->
  forall (rb : option Node) (rs : Z) (w : option Node) (ws : Z),
    selectLoop score l rb rs = Ok (w, ws) ->
    (w = rb /\ ws = rs /\ (rb = None -> forall n, n ∈ l -> sc n = -2)) \/
    (exists x, w = Some x /\ x ∈ l /\ sc x = ws /\ ws ≠ -2).
Proof.
  induction l as [|n l IH]; intros Hall rb rs w ws H.
  - left. simpl in H. injection H as <- <-.
    split; [done|]. split; [done|]. intros _ n Hn.
    by apply elem_of_nil in Hn.
  - cbn [selectLoop] in H. rewrite (Hall n) in H by left.
    cbn [mbind Res_bind] in H.
    assert (forall m, m ∈ l -> score m = Ok (sc m)) as Hl
      by (intros m Hm; apply Hall; by right).
    destruct (negb (sc n =? -2) && _) eqn:Ec.
    + apply andb_true_iff in Ec as [Hne _].
      apply negb_true_iff, Z.eqb_neq in Hne.
      apply (IH Hl) in H as [(-> & -> & _) | (x & -> & Hx & Hsx & Hws)].
      * right. exists n. repeat split; try done. left.
      * right. exists x. repeat split; try done. by right.
    + apply (IH Hl) in H as [(-> & -> & Hrej) | (x & -> & Hx & Hsx & Hws)].
      * left. split; [done|]. split; [done|]. intros Hnone m Hm.
        apply elem_of_cons in Hm as [->|Hm]; [|by apply Hrej].
        subst rb. rewrite bool_decide_eq_true_2 in Ec by done.
        rewrite orb_true_l, andb_true_r in Ec.
        by apply negb_false_iff, Z.eqb_eq in Ec.
      * right. exists x. repeat split; try done. by right.
Qed.

(** X4.  The loop ends with null exactly when every member of the class
    is scored -2; otherwise it ends with a member of the class that is not
    scored -2, together with that member's own score. *)
Theorem selectLoop_null_iff_all_rejected (score : Node -> Res Z)
    (sc : Node -> Z) (eqc : list Node) :
  (forall n, n ∈ eqc -> score n = Ok (sc n)) ->
  ((exists ws, selectLoop score eqc None (-1) = Ok (None, ws)) <->
   forall n, n ∈ eqc -> sc n = -2) /\
  (forall w ws, selectLoop score eqc None (-1) = Ok (Some w, ws) ->
     w ∈ eqc /\ sc w = ws /\ ws ≠ -2).
Proof.
  intros Hall. split; [split|].
  - intros [ws H].
    apply (selectLoop_outcome score sc eqc Hall) in H
      as [(_ & _ & Hrej) | (x & Hx & _)]; [by apply Hrej | done].
  - intros Hrej. exists (-1). apply selectLoop_all_rejected.
    intros n Hn. rewrite (Hall n Hn). by rewrite (Hrej n Hn).
  - intros w ws H.
    apply (selectLoop_outcome score sc eqc Hall) in H
      as [(Hw & _) | (x & [= ->] & Hx)]; done.
Qed.

(** In the class [y, a] scored for an integer variable the real [y] is
    rejected and [a] is left to win. *)
Lemma selectLoop_null_iff_all_rejected_witness :
  let score n :=
    getRepScore (sample.world sample.depthMode [] [] sample.emptyEngine None)
      initial n None 0 sample.INTEGER in
  let sc (n : Node) := if bool_decide (n = sample.y) then -2 else sample.depth n in
  ((exists ws, selectLoop score [sample.y; sample.a] None (-1) = Ok (None, ws)) <->
   forall n, n ∈ [sample.y; sample.a] -> sc n = -2) /\
  (forall w ws,
     selectLoop score [sample.y; sample.a] None (-1) = Ok (Some w, ws) ->
     w ∈ [sample.y; sample.a] /\ sc w = ws /\ ws ≠ -2).
Proof.
  apply (selectLoop_null_iff_all_rejected
           (fun n =>
              getRepScore
                (sample.world sample.depthMode [] [] sample.emptyEngine None)
                initial n None 0 sample.INTEGER)
           (fun n => if bool_decide (n = sample.y) then -2 else sample.depth n)
           [sample.y; sample.a]).
  intros n Hn. rewrite !elem_of_cons, elem_of_nil in Hn.
  destruct Hn as [->|[->|[]]]; reflexivity.
Defined.

(** X5.  [getRepScore] answers -2 exactly for a candidate with an
    instantiation constant under counterexample-guided instantiation or
    with a type that does not fit the variable type, provided recorded
    levels are at most [INT_MAX] and depths and recorded generations are
    not negative. *)
Theorem getRepScore_rejects_iff (E : Env) (s : State) (n : Node)
    (q : option Node) (index : Z) (v_tn : TypeNode) :
  (forall m l, InstLevelAttribute (nm E) m = Some l -> 0 <= l <= INT_MAX) ->
  (forall m, 0 <= getTermDepth (nm E) m) ->
  (forall m g, d_rep_score s !! m = Some g -> 0 <= g) ->
  getRepScore E s n q index v_tn = Ok (-2) <->
  options.cbqi (opts E) && hasInstConstAttr (nm E) n = true \/
  isSubtypeOf (nm E) (getType (nm E) n) v_tn = false.
Proof.
  intros Hlevel Hdepth Hgen. unfold getRepScore. cbv zeta.
  destruct (_ && hasInstConstAttr _ _); [by split; [left|]|].
  destruct (isSubtypeOf _ _ _); simpl; [|by split; [right|]].
  split; [|by intros [|]].
  intros H. exfalso.
  destruct (options.lteRestrictInstClosure _ && _); [done|].
  destruct (negb (_ =? -1)).
  - destruct (InstLevelAttribute (nm E) n) as [l|] eqn:El.
    + specialize (Hlevel n l El). rewrite toInt_id in H by lia.
      injection H as ->. lia.
    + injection H as H. by destruct (options.instLevelInputOnly _).
  - destruct (options.quantRepMode (opts E)); simpl in H; try done.
    + destruct (d_rep_score s !! n) as [g|] eqn:Eg; injection H as H;
        [specialize (Hgen n g Eg)|]; lia.
    + injection H as H. specialize (Hdepth n). lia.
Qed.

Lemma sample_depth_nonneg (n : Node) : 0 <= sample.depth n.
Proof.
  induction n as [k id cs IH] using Node_ind'. simpl.
  assert (-1 <= foldr Z.max (-1) (map sample.depth cs)) as H.
  { clear IH. induction cs as [|c cs IHcs]; simpl; lia. }
  lia.
Qed.

Lemma getRepScore_rejects_iff_witness :
  let E := sample.world sample.depthMode [] [] sample.emptyEngine None in
  getRepScore E initial sample.y None 0 sample.INTEGER = Ok (-2) <->
  options.cbqi (opts E) && hasInstConstAttr (nm E) sample.y = true \/
  isSubtypeOf (nm E) (getType (nm E) sample.y) sample.INTEGER = false.
Proof.
  apply (getRepScore_rejects_iff
           (sample.world sample.depthMode [] [] sample.emptyEngine None)
           initial sample.y None 0 sample.INTEGER).
  - intros m l H. discriminate H.
  - apply sample_depth_nonneg.
  - intros m g H. discriminate H.
Defined.

(** ** More on the selector *)

(** On a miss with the class enumerated, one member of the class with no
    class member below it decides the outcome. *)
Lemma findBestSelection_answer (E : Env) (a : Node) (q : option Node)
    (index : Z) (r : Node) (v_tn : TypeNode) (s : State) (eqc : list Node) :
  options.quantRepMode (opts E) ≠ options.EE ->
  getEquivalenceClass E r [] = Ok eqc ->
  exists t,
    t ∈ eqc /\ (forall m, m ∈ properSubterms t -> m ∉ eqc) /\
    findBestSelection E a q index r v_tn s =
      (Assert (isSubtypeOf (nm E) (getType (nm E) t) v_tn) ;;
       Ok (t, storeChoice v_tn r t s)).
Proof.
  intros Hmode He.
  destruct (selectLoop_total
              (fun n => getRepScore E s n q index v_tn) eqc None (-1))
    as (w & ws & Hl).
  { intros n _. by apply getRepScore_total. }
  assert (default r w ∈ eqc) as Hin.
  { destruct w as [w|]; simpl.
    - by apply selectLoop_member in Hl as [Hl|Hl].
    - by apply (proj2 (getEquivalenceClass_self_member_aux E r) [] eqc). }
  destruct (firstNestedMember_is_Some eqc _ Hin) as [t Ht].
  destruct (firstNestedMember_innermost eqc _ t Ht) as (_ & Ht1 & Ht2 & _).
  exists t. split; [done|]. split; [done|].
  by rewrite (findBestSelection_unfold _ _ _ _ _ _ _ eqc w ws He Hl), Ht.
Qed.

(** X6.  On a cache miss in a caching mode, once the class of the
    representative is enumerated, scoring and the instance guard never
    halt and never leave [r_best] null: the outcome rests on one member
    [t] of the class that has no class member among its proper subterms;
    [t] is returned and stored if its type fits the variable type, and
    the call halts on the type assertion otherwise. *)
Theorem getInternalRepresentative_miss_outcome (E : Env) (a : Node)
    (q : option Node) (index : Z) (s : State) (r : Node) (v_tn : TypeNode)
    (eqc : list Node) :
  options.quantRepMode (opts E) ≠ options.EE ->
  quantifierOk q = true ->
  mapFromModel E (getRepresentative E a) = Ok r ->
  variableType E a q index = Ok v_tn ->
  default ∅ (d_int_rep s !! v_tn) !! r = None ->
  getEquivalenceClass E r [] = Ok eqc ->
  exists t,
    t ∈ eqc /\ (forall m, m ∈ properSubterms t -> m ∉ eqc) /\
    getInternalRepresentative E a q index s =
      (Assert (isSubtypeOf (nm E) (getType (nm E) t) v_tn) ;;
       Ok (t, storeChoice v_tn r t s)).
Proof.
  intros Hmode Hq Hr Hv Hmiss He.
  destruct (findBestSelection_answer E a q index r v_tn (touch v_tn s) eqc
              Hmode He) as (t & Ht1 & Ht2 & Hf).
  exists t. split; [done|]. split; [done|].
  rewrite (getInternalRepresentative_unfold _ _ _ _ _ _ _ Hmode Hq Hr Hv).
  by rewrite Hmiss, Hf, storeChoice_touch.
Qed.

Lemma getInternalRepresentative_miss_outcome_witness :
  let E :=
    sample.world sample.depthMode [] []
      (sample.oneClass sample.fa [sample.fa; sample.a; sample.b]) None in
  exists t,
    t ∈ [sample.fa; sample.a; sample.b] /\
    (forall m, m ∈ properSubterms t -> m ∉ [sample.fa; sample.a; sample.b]) /\
    getInternalRepresentative E sample.b None 0 initial =
      (Assert (isSubtypeOf (nm E) (getType (nm E) t) sample.INTEGER) ;;
       Ok (t, storeChoice sample.INTEGER sample.fa t initial)).
Proof.
  apply (getInternalRepresentative_miss_outcome
           (sample.world sample.depthMode [] []
              (sample.oneClass sample.fa [sample.fa; sample.a; sample.b])
              None)
           sample.b None 0 initial sample.fa sample.INTEGER
           [sample.fa; sample.a; sample.b]);
    try reflexivity. discriminate.
Defined.

(** X7.  Right after [reset], a call in a caching mode that returns hands
    back a member of the class the engine enumerates now, one with no
    class member among its proper subterms: nothing cached before the
    reset can come back. *)
Theorem getInternalRepresentative_after_reset (E : Env) (a : Node)
    (q : option Node) (index : Z) (e : Effort) (s s' : State) (t : Node) :
  options.quantRepMode (opts E) ≠ options.EE ->
  getInternalRepresentative E a q index (reset e s).2 = Ok (t, s') ->
  exists r eqc,
    mapFromModel E (getRepresentative E a) = Ok r /\
    getEquivalenceClass E r [] = Ok eqc /\
    t ∈ eqc /\ (forall m, m ∈ properSubterms t -> m ∉ eqc).
Proof.
  intros Hmode H.
  apply getInternalRepresentative_Ok_inv in H
    as (_ & r & Hr & [(Hee & _) | (_ & v_tn & _ & Hcase)]); [done|].
  destruct Hcase as [(Hhit & _) | (_ & Hsel)].
  - exfalso. revert Hhit.
    change (d_int_rep (reset e s).2) with (∅ : gmap TypeNode (gmap Node Node)).
    rewrite lookup_empty. simpl. by rewrite lookup_empty.
  - apply findBestSelection_Ok_inv in Hsel
      as (eqc & w & ws & He & _ & Ht & _).
    destruct (firstNestedMember_innermost eqc _ t Ht) as (_ & Ht1 & Ht2 & _).
    by exists r, eqc.
Qed.

(** [f(a)] is cached for the class [f(a)] alone; after the reset the
    engine has the class [f(a), a] and the call returns [a]. *)
Lemma getInternalRepresentative_after_reset_witness :
  let E :=
    sample.world sample.depthMode [] []
      (sample.oneClass sample.fa [sample.fa; sample.a]) None in
  let s := storeChoice sample.INTEGER sample.fa sample.fa initial in
  fst <$> getInternalRepresentative E sample.fa None 0 s = Ok sample.fa /\
  fst <$> getInternalRepresentative E sample.fa None 0
            (reset EFFORT_FULL s).2 = Ok sample.a /\
  exists r eqc,
    mapFromModel E (getRepresentative E sample.fa) = Ok r /\
    getEquivalenceClass E r [] = Ok eqc /\
    sample.a ∈ eqc /\ (forall m, m ∈ properSubterms sample.a -> m ∉ eqc).
Proof.
  split; [vm_compute; reflexivity|].
  split; [vm_compute; reflexivity|].
  apply (getInternalRepresentative_after_reset
           (sample.world sample.depthMode [] []
              (sample.oneClass sample.fa [sample.fa; sample.a]) None)
           sample.fa None 0 EFFORT_FULL
           (storeChoice sample.INTEGER sample.fa sample.fa initial)
           (storeChoice sample.INTEGER sample.fa sample.a
              (reset EFFORT_FULL
                 (storeChoice sample.INTEGER sample.fa sample.fa initial)).2)
           sample.a);
    [discriminate | vm_compute; reflexivity].
Defined.

(** X8.  For a term the engine has not registered, whose representative
    the model mapping leaves alone, a cache miss in a caching mode returns
    the term itself whenever its type fits the variable type, whatever
    score it gets, and halts on the type assertion otherwise. *)
Theorem getInternalRepresentative_unregistered (E : Env) (a : Node)
    (q : option Node) (index : Z) (s : State) (v_tn : TypeNode) :
  options.quantRepMode (opts E) ≠ options.EE ->
  hasTerm E a = false ->
  quantifierOk q = true ->
  mapFromModel E a = Ok a ->
  variableType E a q index = Ok v_tn ->
  default ∅ (d_int_rep s !! v_tn) !! a = None ->
  getInternalRepresentative E a q index s =
    (Assert (isSubtypeOf (nm E) (getType (nm E) a) v_tn) ;;
     Ok (a, storeChoice v_tn a a s)).
Proof.
  intros Hmode Hreg Hq Hr Hv Hmiss.
  assert (getRepresentative E a = a) as Hrep.
  { unfold getRepresentative. unfold hasTerm in Hreg. by rewrite Hreg. }
  rewrite <- Hrep in Hr at 1.
  assert (getEquivalenceClass E a [] = Ok [a]) as He.
  { destruct (proj1 (getEquivalenceClass_self_member_aux E a)) as [H|H];
      [done | congruence]. }
  destruct (findBestSelection_answer E a q index a v_tn (touch v_tn s) [a]
              Hmode He) as (t & Ht & _ & Hf).
  apply list_elem_of_singleton in Ht as ->.
  rewrite (getInternalRepresentative_unfold _ _ _ _ _ _ _ Hmode Hq Hr Hv).
  by rewrite Hmiss, Hf, storeChoice_touch.
Qed.

(** The unregistered [a] with an instantiation constant is rejected by
    the scoring and still comes back. *)
Lemma getInternalRepresentative_unregistered_witness :
  let E := sample.world sample.cbqiMode [sample.a] [] sample.emptyEngine None in
  getRepScore E initial sample.a None 0 sample.INTEGER = Ok (-2) /\
  getInternalRepresentative E sample.a None 0 initial =
    Ok (sample.a, storeChoice sample.INTEGER sample.a sample.a initial).
Proof.
  split; [reflexivity|].
  apply (getInternalRepresentative_unregistered
           (sample.world sample.cbqiMode [sample.a] [] sample.emptyEngine None)
           sample.a None 0 initial sample.INTEGER);
    try reflexivity. discriminate.
Defined.

(** X9.  A call that returns after a cache miss changes the tables in
    two places only: the cache gains the entry for the variable type and
    the representative, and the returned term is recorded as first chosen
    at the current generation unless it had an entry, which it keeps.
    Every other cache entry, every other first-chosen entry and the
    generation counter are as before. *)
Theorem getInternalRepresentative_miss_frame (E : Env) (a : Node)
    (q : option Node) (index : Z) (s s' : State) (r t : Node)
    (v_tn : TypeNode) :
  options.quantRepMode (opts E) ≠ options.EE ->
  mapFromModel E (getRepresentative E a) = Ok r ->
  variableType E a q index = Ok v_tn ->
  default ∅ (d_int_rep s !! v_tn) !! r = None ->
  getInternalRepresentative E a q index s = Ok (t, s') ->
  default ∅ (d_int_rep s' !! v_tn) !! r = Some t /\
  (forall v r', (v, r') ≠ (v_tn, r) ->
     default ∅ (d_int_rep s' !! v) !! r' = default ∅ (d_int_rep s !! v) !! r') /\
  d_rep_score s' !! t =
    Some (default (d_reset_count s) (d_rep_score s !! t)) /\
  (forall n, n ≠ t -> d_rep_score s' !! n = d_rep_score s !! n) /\
  d_reset_count s' = d_reset_count s.
Proof.
  intros Hmode Hr Hv Hmiss H.
  assert (s' = storeChoice v_tn r t s) as ->.
  { apply getInternalRepresentative_Ok_inv in H
      as (_ & r0 & Hr0 & [(Hee & _) | (_ & v0 & Hv0 & Hcase)]); [done|].
    assert (r0 = r) as -> by congruence.
    assert (v0 = v_tn) as -> by congruence.
    destruct Hcase as [(Hhit & _) | (_ & Hsel)]; [congruence|].
    apply findBestSelection_Ok_inv in Hsel
      as (eqc & w & ws & _ & _ & _ & _ & ->).
    apply storeChoice_touch. }
  split; [apply storeChoice_lookup|].
  split; [|split; [|split; [|done]]].
  - intros v r' Hne. simpl.
    destruct (decide (v = v_tn)) as [->|Hv'].
    + rewrite lookup_insert_eq. simpl.
      rewrite lookup_insert_ne; [done | congruence].
    + by rewrite lookup_insert_ne.
  - simpl. destruct (d_rep_score s !! t) as [g|] eqn:Et; simpl.
    + by rewrite Et.
    + by rewrite lookup_insert_eq.
  - intros n Hn. simpl. destruct (d_rep_score s !! t); [done|].
    by rewrite lookup_insert_ne.
Qed.

Lemma getInternalRepresentative_miss_frame_witness :
  let E :=
    sample.world sample.depthMode [] []
      (sample.oneClass sample.fa [sample.fa; sample.a; sample.b]) None in
  let s := (reset EFFORT_FULL initial).2 in
  let s' := storeChoice sample.INTEGER sample.fa sample.a s in
  default ∅ (d_int_rep s' !! sample.INTEGER) !! sample.fa = Some sample.a /\
  (forall v r', (v, r') ≠ (sample.INTEGER, sample.fa) ->
     default ∅ (d_int_rep s' !! v) !! r' = default ∅ (d_int_rep s !! v) !! r') /\
  d_rep_score s' !! sample.a =
    Some (default (d_reset_count s) (d_rep_score s !! sample.a)) /\
  (forall n, n ≠ sample.a -> d_rep_score s' !! n = d_rep_score s !! n) /\
  d_reset_count s' = d_reset_count s.
Proof.
  apply (getInternalRepresentative_miss_frame
           (sample.world sample.depthMode [] []
              (sample.oneClass sample.fa [sample.fa; sample.a; sample.b])
              None)
           sample.b None 0 (reset EFFORT_FULL initial).2
           (storeChoice sample.INTEGER sample.fa sample.a
              (reset EFFORT_FULL initial).2)
           sample.fa sample.a sample.INTEGER);
    try (vm_compute; reflexivity). discriminate.
Defined.

(** ** Invariants of a session *)

Lemma touch_lookup_any (v_tn v : TypeNode) (s : State) :
  default ∅ (d_int_rep (touch v_tn s) !! v) = default ∅ (d_int_rep s !! v).
Proof.
  destruct (decide (v = v_tn)) as [->|Hne]; [apply touch_lookup|].
  unfold touch. destruct (d_int_rep s !! v_tn); [done|]. simpl.
  by rewrite lookup_insert_ne.
Qed.

Lemma storeChoice_lookup_other (v_tn v : TypeNode) (r r' t : Node)
    (s : State) :
  (v, r') ≠ (v_tn, r) ->
  default ∅ (d_int_rep (storeChoice v_tn r t s) !! v) !! r' =
  default ∅ (d_int_rep s !! v) !! r'.
Proof.
  intros Hne. simpl. destruct (decide (v = v_tn)) as [->|Hv].
  - rewrite lookup_insert_eq. simpl.
    rewrite lookup_insert_ne; [done | congruence].
  - by rewrite lookup_insert_ne.
Qed.

(** How a call that returns relates the two states. *)
Lemma getInternalRepresentative_step (E : Env) (a : Node) (q : option Node)
    (index : Z) (s s' : State) (t : Node) :
  getInternalRepresentative E a q index s = Ok (t, s') ->
  s' = s \/
  (exists v_tn, s' = touch v_tn s) \/
  (exists v_tn r,
     default ∅ (d_int_rep s !! v_tn) !! r = None /\
     s' = storeChoice v_tn r t s).
Proof.
  intros H.
  apply getInternalRepresentative_Ok_inv in H
    as (_ & r & _ & [(_ & _ & ->) | (_ & v_tn & _ & Hcase)]); [by left|].
  right. destruct Hcase as [(_ & ->) | (Hmiss & Hsel)]; [left; eauto|].
  right. exists v_tn, r. split; [done|].
  apply findBestSelection_Ok_inv in Hsel
    as (eqc & w & ws & _ & _ & _ & _ & ->).
  apply storeChoice_touch.
Qed.

Lemma generationsBounded_touch (v_tn : TypeNode) (s : State) :
  generationsBounded s -> generationsBounded (touch v_tn s).
Proof.
  unfold generationsBounded.
  by rewrite touch_rep_score, touch_reset_count.
Qed.

Lemma generationsBounded_storeChoice (v_tn : TypeNode) (r t : Node)
    (s : State) :
  generationsBounded s -> generationsBounded (storeChoice v_tn r t s).
Proof.
  intros [H0 Hs]. split; [done|]. intros n g. simpl.
  destruct (d_rep_score s !! t) eqn:Et; [apply Hs|].
  rewrite lookup_insert. case_decide; [|apply Hs].
  intros [= <-]. lia.
Qed.

Lemma generationsBounded_reset (e : Effort) (s : State) :
  d_reset_count s < INT_MAX ->
  generationsBounded s ->
  generationsBounded (reset e s).2 /\
  d_reset_count (reset e s).2 = d_reset_count s + 1.
Proof.
  intros Hmax [H0 Hs].
  assert (d_reset_count (reset e s).2 = d_reset_count s + 1) as Hc.
  { simpl. apply toInt_id. unfold INT_MAX in *. lia. }
  split; [|done]. split; [lia|].
  intros n g Hn. rewrite Hc. specialize (Hs n g Hn). lia.
Qed.

Lemma countResets_nonneg (calls : list Call) : 0 <= countResets calls.
Proof.
  induction calls as [|c calls IH]; simpl; [done|].
  destruct (isReset c); lia.
Qed.

(** As long as the resets fit below [INT_MAX], the counter counts them
    and the recorded generations stay between 0 and the counter. *)
Lemma run_generationsBounded (calls : list Call) :
  forall s s',
    generationsBounded s ->
    d_reset_count s + countResets calls <= INT_MAX ->
    run calls s = Ok s' ->
    generationsBounded s' /\
    d_reset_count s' = d_reset_count s + countResets calls.
Proof.
  induction calls as [|c calls IH]; intros s s' Hs Hmax Hrun.
  - simpl in *. injection Hrun as <-. split; [done | lia].
  - pose proof (countResets_nonneg calls) as Hnn.
    destruct c as [e | E a q index]; cbn [run countResets isReset] in *.
    + destruct (generationsBounded_reset e s) as [Hb Hc]; [lia | done |].
      destruct (IH (reset e s).2 s' Hb) as [H1 H2]; [lia | done |].
      split; [done | lia].
    + apply bind_Ok_inv in Hrun as ([t s1] & Hcall & Hrun).
      assert (generationsBounded s1 /\ d_reset_count s1 = d_reset_count s)
        as [Hb Hc].
      { apply getInternalRepresentative_step in Hcall
          as [-> | [(v & ->) | (v & r & _ & ->)]]; [done | |].
        - split; [by apply generationsBounded_touch|].
          apply touch_reset_count.
        - split; [by apply generationsBounded_storeChoice | done]. }
      destruct (IH s1 s' Hb) as [H1 H2]; [lia | done |].
      split; [done | lia].
Qed.

Lemma generationsBounded_initial : generationsBounded initial.
Proof.
  split; [done|]. intros n g H.
  change ((∅ : gmap Node Z) !! n = Some g) in H.
  by rewrite lookup_empty in H.
Qed.

Lemma choicesRecorded_touch (v_tn : TypeNode) (s : State) :
  choicesRecorded s -> choicesRecorded (touch v_tn s).
Proof.
  intros Hs v m r t. rewrite touch_rep_score. unfold touch.
  destruct (d_int_rep s !! v_tn) eqn:E; [apply Hs|]. simpl.
  rewrite lookup_insert. case_decide; [|apply Hs].
  intros [= <-]. by rewrite lookup_empty.
Qed.

Lemma choicesRecorded_storeChoice (v_tn : TypeNode) (r t : Node)
    (s : State) :
  choicesRecorded s -> choicesRecorded (storeChoice v_tn r t s).
Proof.
  intros Hs v m r' t'.
  assert (forall x, is_Some (d_rep_score s !! x) ->
                    is_Some (d_rep_score (storeChoice v_tn r t s) !! x))
    as Hkeep.
  { intros x [g Hx]. simpl. destruct (d_rep_score s !! t); [by exists g|].
    rewrite lookup_insert. case_decide; eauto. }
  assert (is_Some (d_rep_score (storeChoice v_tn r t s) !! t)) as Hnew.
  { simpl. destruct (d_rep_score s !! t) as [g|] eqn:Et.
    - rewrite Et. by exists g.
    - rewrite lookup_insert_eq. eauto. }
  cbn [d_int_rep storeChoice].
  rewrite lookup_insert. case_decide as Hd.
  - intros [= <-]. rewrite lookup_insert. case_decide.
    + by intros [= <-].
    + intros Hm. apply Hkeep.
      destruct (d_int_rep s !! v_tn) as [m0|] eqn:E; simpl in Hm.
      * subst v. by apply (Hs v_tn m0 r' t').
      * by rewrite lookup_empty in Hm.
  - intros Hv Hm. apply Hkeep. by apply (Hs v m r' t').
Qed.

Lemma choicesRecorded_reset (e : Effort) (s : State) :
  choicesRecorded (reset e s).2.
Proof.
  intros v m r t H.
  change ((∅ : gmap TypeNode (gmap Node Node)) !! v = Some m) in H.
  by rewrite lookup_empty in H.
Qed.

Lemma run_invariant (P : State -> Prop) :
  (forall e s, P s -> P (reset e s).2) ->
  (forall v_tn s, P s -> P (touch v_tn s)) ->
  (forall v_tn r t s, P s -> P (storeChoice v_tn r t s)) ->
  forall calls s s', P s -> run calls s = Ok s' -> P s'.
Proof.
  intros Hreset Htouch Hstore.
  induction calls as [|c calls IH]; intros s s' Hs Hrun.
  - simpl in Hrun. by injection Hrun as <-.
  - destruct c as [e | E a q index]; cbn [run] in Hrun.
    + apply (IH (reset e s).2); [by apply Hreset | done].
    + apply bind_Ok_inv in Hrun as ([t s1] & Hcall & Hrun).
      apply (IH s1); [|done].
      apply getInternalRepresentative_step in Hcall
        as [-> | [(v & ->) | (v & r & _ & ->)]]; auto.
Qed.

Lemma toInt_range (z : Z) : -2147483648 <= toInt z <= INT_MAX.
Proof.
  unfold toInt, INT_MAX.
  pose proof (Z.mod_pos_bound (z + 2147483648) 4294967296). lia.
Qed.

(** Every state a session reaches from the initial state holds [int]s. *)
Lemma run_intState (calls : list Call) (s : State) :
  run calls initial = Ok s -> intState s.
Proof.
  apply (run_invariant intState).
  - intros e s0 [_ Hs]. split; [apply toInt_range | exact Hs].
  - intros v s0. unfold intState.
    by rewrite touch_rep_score, touch_reset_count.
  - intros v r t s0 [H0 Hs]. split; [done|]. intros n g. simpl.
    destruct (d_rep_score s0 !! t); [apply Hs|].
    rewrite lookup_insert. case_decide; [|apply Hs]. by intros [= <-].
  - split; [unfold INT_MAX; simpl; lia|]. intros n g H.
    change ((∅ : gmap Node Z) !! n = Some g) in H.
    by rewrite lookup_empty in H.
Qed.

(** The session used below: select for [b], reset twice, select for [a]. *)
Lemma sample_session :
  run [CallGetInternalRepresentative
         (sample.world sample.depthMode [] []
            (sample.oneClass sample.fa [sample.fa; sample.a; sample.b]) None)
         sample.b None 0;
       CallReset EFFORT_FULL; CallReset EFFORT_LAST_CALL;
       CallGetInternalRepresentative
         (sample.world sample.depthMode [] []
            (sample.oneClass sample.fa [sample.fa; sample.a; sample.b]) None)
         sample.a None 0] initial =
  Ok {| d_int_rep := {[sample.INTEGER := {[sample.fa := sample.a]}]};
        d_rep_score := {[sample.a := 0]};
        d_reset_count := 2 |}.
Proof. vm_compute. reflexivity. Qed.

(** X10.  In every state a session with at most [INT_MAX] resets reaches
    from the initial state, the generation counter is the number of
    resets made and every recorded first-chosen generation lies between 0
    and the counter. *)
Theorem session_generations_bounded (calls : list Call) (s : State) :
  countResets calls <= INT_MAX ->
  run calls initial = Ok s ->
  generationsBounded s /\ d_reset_count s = countResets calls.
Proof.
  intros Hmax Hrun.
  apply (run_generationsBounded calls initial s); [|done|done].
  apply generationsBounded_initial.
Qed.

(** The sample session makes two resets and ends with the counter at 2
    and [a] recorded at generation 0. *)
Lemma session_generations_bounded_witness :
  let s :=
    {| d_int_rep := {[sample.INTEGER := {[sample.fa := sample.a]}]};
       d_rep_score := {[sample.a := 0]};
       d_reset_count := 2 |} in
  generationsBounded s /\ d_reset_count s = 2.
Proof.
  refine (session_generations_bounded _ _ _ sample_session).
  vm_compute. discriminate.
Defined.

(** X11.  In every state a session reaches from the initial state, each
    term held in the cache as a chosen representative has an entry in the
    first-chosen table. *)
Theorem session_choices_recorded (calls : list Call) (s : State) :
  run calls initial = Ok s -> choicesRecorded s.
Proof.
  apply (run_invariant choicesRecorded).
  - intros e s0 _. apply choicesRecorded_reset.
  - apply choicesRecorded_touch.
  - apply choicesRecorded_storeChoice.
  - intros v m r t H.
    change ((∅ : gmap TypeNode (gmap Node Node)) !! v = Some m) in H.
    by rewrite lookup_empty in H.
Qed.

Lemma session_choices_recorded_witness :
  choicesRecorded
    {| d_int_rep := {[sample.INTEGER := {[sample.fa := sample.a]}]};
       d_rep_score := {[sample.a := 0]};
       d_reset_count := 2 |}.
Proof. exact (session_choices_recorded _ _ sample_session). Defined.

(** X12.  Along a session without a reset the generation counter stays
    put and a cache entry, once there, stays as it is: no call to
    [getInternalRepresentative] overwrites or drops it, whatever the
    engine says by then. *)
Theorem cache_entry_persists (calls : list Call) (s s' : State)
    (v_tn : TypeNode) (r t : Node) :
  Forall (fun c => isReset c = false) calls ->
  run calls s = Ok s' ->
  default ∅ (d_int_rep s !! v_tn) !! r = Some t ->
  default ∅ (d_int_rep s' !! v_tn) !! r = Some t /\
  d_reset_count s' = d_reset_count s.
Proof.
  intros Hcalls. revert s.
  induction Hcalls as [|c calls Hc _ IH]; intros s Hrun Hentry.
  - simpl in Hrun. by injection Hrun as <-.
  - destruct c as [e | E a q index]; [done|]. cbn [run] in Hrun.
    apply bind_Ok_inv in Hrun as ([t1 s1] & Hcall & Hrun).
    assert (default ∅ (d_int_rep s1 !! v_tn) !! r = Some t /\
            d_reset_count s1 = d_reset_count s) as [H1 H2].
    { apply getInternalRepresentative_step in Hcall
        as [-> | [(v & ->) | (v & r1 & Hmiss & ->)]]; [done | |].
      - by rewrite touch_lookup_any, touch_reset_count.
      - split; [|done]. rewrite storeChoice_lookup_other; [done|].
        intros [= -> ->]. congruence. }
    destruct (IH s1 Hrun H1) as [H3 H4]. split; [done | congruence].
Qed.

(** [f(a)] is cached for the class [f(a)]; after a selection for the
    unregistered [b] and a call made when the engine has [a] in the class
    of [f(a)] too, the entry still answers [f(a)]. *)
Lemma cache_entry_persists_witness :
  let s := storeChoice sample.INTEGER sample.fa sample.fa initial in
  let s' := storeChoice sample.INTEGER sample.b sample.b s in
  let calls :=
    [CallGetInternalRepresentative
       (sample.world sample.depthMode [] [] sample.emptyEngine None)
       sample.b None 0;
     CallGetInternalRepresentative
       (sample.world sample.depthMode [] []
          (sample.oneClass sample.fa [sample.fa; sample.a]) None)
       sample.a None 0] in
  run calls s = Ok s' /\
  default ∅ (d_int_rep s' !! sample.INTEGER) !! sample.fa = Some sample.fa /\
  d_reset_count s' = d_reset_count s.
Proof.
  assert (run
            [CallGetInternalRepresentative
               (sample.world sample.depthMode [] [] sample.emptyEngine None)
               sample.b None 0;
             CallGetInternalRepresentative
               (sample.world sample.depthMode [] []
                  (sample.oneClass sample.fa [sample.fa; sample.a]) None)
               sample.a None 0]
            (storeChoice sample.INTEGER sample.fa sample.fa initial) =
          Ok (storeChoice sample.INTEGER sample.b sample.b
                (storeChoice sample.INTEGER sample.fa sample.fa initial)))
    as Hrun by (vm_compute; reflexivity).
  split; [exact Hrun|].
  refine (cache_entry_persists _ _ _ sample.INTEGER sample.fa sample.fa
            _ Hrun _).
  - repeat constructor.
  - vm_compute. reflexivity.
Defined.

(** X13.  In every state a session over one set of term facts reaches
    from the initial state, each cached choice has a type that is a
    subtype of the variable type it is filed under. *)
Theorem session_cache_well_typed (N : NodeManager) (calls : list Call)
    (s : State) :
  Forall (fun c => match c with
                   | CallReset _ => True
                   | CallGetInternalRepresentative E _ _ _ => nm E = N
                   end) calls ->
  run calls initial = Ok s ->
  cacheWellTyped N s.
Proof.
  intros Hcalls Hrun.
  apply (run_cacheWellTyped N calls Hcalls initial s); [|done].
  apply cacheWellTyped_initial.
Qed.

Lemma session_cache_well_typed_witness :
  cacheWellTyped (sample.nodes [] [])
    {| d_int_rep := {[sample.INTEGER := {[sample.fa := sample.a]}]};
       d_rep_score := {[sample.a := 0]};
       d_reset_count := 2 |}.
Proof.
  refine (session_cache_well_typed _ _ _ _ sample_session).
  repeat constructor.
Defined.

(** ** First-use scoring across generations *)

(** X14.  In plain first-use mode (no level limit, no closure
    restriction), with a generation counter that is not negative, take a
    class none of whose members has been chosen before and let a cache
    miss return [t], a term without the counterexample-guided
    rejection.  Then at any later cache miss for the
    same representative and variable type, in a state whose first-chosen
    entries for the class are those the first call left (after any number
    of resets, say), the call returns [t] again. *)
Theorem first_use_choice_is_stable (E : Env) (a : Node) (q : option Node)
    (index : Z) (s s1 s2 : State) (r t : Node) (v_tn : TypeNode)
    (eqc : list Node) :
  options.quantRepMode (opts E) = options.FIRST ->
  options.instMaxLevel (opts E) = -1 ->
  options.lteRestrictInstClosure (opts E) = false ->
  mapFromModel E (getRepresentative E a) = Ok r ->
  variableType E a q index = Ok v_tn ->
  getEquivalenceClass E r [] = Ok eqc ->
  0 <= d_reset_count s ->
  (forall n, n ∈ eqc -> d_rep_score s !! n = None) ->
  default ∅ (d_int_rep s !! v_tn) !! r = None ->
  getInternalRepresentative E a q index s = Ok (t, s1) ->
  options.cbqi (opts E) && hasInstConstAttr (nm E) t = false ->
  (forall n, n ∈ eqc -> d_rep_score s2 !! n = d_rep_score s1 !! n) ->
  default ∅ (d_int_rep s2 !! v_tn) !! r = None ->
  getInternalRepresentative E a q index s2 =
    Ok (t, storeChoice v_tn r t s2).
Proof.
  intros Hmode Hlevel Hlte Hr Hv He Hcount Hfresh Hmiss H Hcbqi Hsame Hmiss2.
  assert (options.quantRepMode (opts E) ≠ options.EE) as Hnee
    by (rewrite Hmode; discriminate).
  pose proof H as H0.
  apply getInternalRepresentative_Ok_inv in H0
    as (Hq & r0 & Hr0 & [(Hee & _) | (_ & v0 & Hv0 & Hcase)]); [done|].
  assert (r0 = r) as -> by congruence.
  assert (v0 = v_tn) as -> by congruence.
  destruct Hcase as [(Hhit & _) | (_ & Hsel)]; [congruence|].
  apply findBestSelection_Ok_inv in Hsel
    as (eqc0 & w & ws & He0 & _ & Hguard & Htype & Hs1).
  assert (eqc0 = eqc) as -> by congruence.
  rewrite storeChoice_touch in Hs1. subst s1.
  destruct (firstNestedMember_innermost eqc _ t Hguard)
    as (_ & Hin & Hinner & _).
  set (G := d_reset_count s).
  set (sc := fun n : Node =>
               if options.cbqi (opts E) && hasInstConstAttr (nm E) n ||
                  negb (isSubtypeOf (nm E) (getType (nm E) n) v_tn)
               then -2
               else if bool_decide (n = t) then G else -1).
  assert (sc t = G) as Hsct.
  { unfold sc. rewrite Hcbqi, Htype. simpl.
    by rewrite bool_decide_eq_true_2. }
  assert (forall n, sc n = -2 \/ sc n = -1 \/ (sc n = G /\ n = t)) as Hsc.
  { intros n. unfold sc. destruct (_ || _); [by left|].
    case_bool_decide; [right; right | right; left]; done. }
  assert (forall n, n ∈ [] ++ eqc ->
            getRepScore E (touch v_tn s2) n q index v_tn = Ok (sc n) /\
            -2 <= sc n) as Hscores.
  { intros n Hn. simpl in Hn. split.
    - unfold getRepScore, sc. cbv zeta. rewrite Hlte, Hlevel, Hmode.
      destruct (options.cbqi (opts E) && hasInstConstAttr (nm E) n);
        [done|].
      destruct (isSubtypeOf (nm E) (getType (nm E) n) v_tn); [|done].
      simpl. rewrite touch_rep_score, (Hsame n Hn). simpl.
      case_bool_decide as Hd.
      + subst n. rewrite (Hfresh t Hin). by rewrite lookup_insert_eq.
      + rewrite (Hfresh t Hin).
        rewrite lookup_insert_ne by done. by rewrite (Hfresh n Hn).
    - destruct (Hsc n) as [-> | [-> | [-> _]]]; lia. }
  pose proof (selectLoop_heldAfter sc
                (fun n => getRepScore E (touch v_tn s2) n q index v_tn)
                eqc [] Hscores) as Hloop.
  assert (preGuardWinner sc eqc = Some t) as Hwin.
  { unfold preGuardWinner.
    set (members := filter (fun n => sc n ≠ -2) eqc).
    assert (t ∈ members) as Htm.
    { apply list_elem_of_filter. split; [lia | done]. }
    assert (minimalPreferred sc members = Some G) as ->.
    { apply minimalPreferred_Some. split; [done|]. split; [eauto|].
      intros x _ Hx. destruct (Hsc x) as [Hx' | [Hx' | [Hx' _]]]; lia. }
    destruct (firstScored sc G members) as [x|] eqn:Ex.
    - apply firstScored_Some in Ex as [_ Hx].
      destruct (Hsc x) as [Hx' | [Hx' | [_ ->]]]; [lia | lia | done].
    - rewrite firstScored_None in Ex. by destruct (Ex t Htm). }
  simpl in Hloop. unfold heldAfter in Hloop. rewrite Hwin in Hloop.
  rewrite (getInternalRepresentative_unfold _ _ _ _ _ _ _ Hnee Hq Hr Hv).
  rewrite Hmiss2.
  rewrite (findBestSelection_unfold _ _ _ _ _ _ _ eqc _ _ He Hloop).
  simpl. rewrite (firstNestedMember_plain eqc t Hinner Hin), Htype.
  by rewrite storeChoice_touch.
Qed.

(** The class [f(a), a], fresh: [f(a)] is enumerated first and wins the
    tie of never-chosen members, the guard turns it into [a]; after a
    reset [a] alone has been chosen before and is returned again. *)
Lemma first_use_choice_is_stable_witness :
  let E :=
    sample.world sample.firstMode [] []
      (sample.oneClass sample.fa [sample.fa; sample.a]) None in
  let s1 := storeChoice sample.INTEGER sample.fa sample.a initial in
  let s2 := (reset EFFORT_FULL s1).2 in
  getInternalRepresentative E sample.fa None 0 initial = Ok (sample.a, s1) /\
  getInternalRepresentative E sample.fa None 0 s2 =
    Ok (sample.a, storeChoice sample.INTEGER sample.fa sample.a s2).
Proof.
  assert (getInternalRepresentative
            (sample.world sample.firstMode [] []
               (sample.oneClass sample.fa [sample.fa; sample.a]) None)
            sample.fa None 0 initial =
          Ok (sample.a,
              storeChoice sample.INTEGER sample.fa sample.a initial))
    as H by (vm_compute; reflexivity).
  split; [exact H|].
  refine (first_use_choice_is_stable _ sample.fa None 0 initial _ _
            sample.fa sample.a sample.INTEGER [sample.fa; sample.a]
            _ _ _ _ _ _ _ _ _ H _ _ _);
    try reflexivity; try (simpl; lia).
Defined.

(** ** More on the queries that wrap the engine *)

(** X15.  [areEqual] and [areDisequal] are symmetric whenever the
    engine's own answers are. *)
Theorem areEqual_areDisequal_symmetric (E : Env) (a b : Node) :
  (forall x y, uf.areEqual (getEngine E) x y = uf.areEqual (getEngine E) y x) ->
  (forall x y, uf.areDisequal (getEngine E) x y false =
               uf.areDisequal (getEngine E) y x false) ->
  areEqual E a b = areEqual E b a /\
  areDisequal E a b = areDisequal E b a.
Proof.
  intros Heq Hdis. unfold areEqual, areDisequal. cbv zeta.
  rewrite (andb_comm (uf.hasTerm (getEngine E) b)).
  rewrite (andb_comm (isConst (nm E) b)).
  rewrite (Heq b a), (Hdis b a).
  destruct (decide (a = b)) as [->|Hne]; [done|].
  rewrite !bool_decide_eq_false_2; [done | congruence | done].
Qed.

Lemma areEqual_areDisequal_symmetric_witness :
  let E := sample.world sample.depthMode [] [] sample.emptyEngine None in
  areEqual E sample.u sample.a = areEqual E sample.a sample.u /\
  areDisequal E sample.u sample.a = areDisequal E sample.a sample.u.
Proof.
  apply (areEqual_areDisequal_symmetric
           (sample.world sample.depthMode [] [] sample.emptyEngine None)
           sample.u sample.a); reflexivity.
Defined.

(** X16.  For one and the same term, and for two terms of which at least
    one is not registered, [areEqual] and [areDisequal] are never both
    true: only the engine's own answers for two registered terms can
    conflict. *)
Theorem areEqual_areDisequal_exclusive (E : Env) (a b : Node) :
  a = b \/ hasTerm E a && hasTerm E b = false ->
  areEqual E a b && areDisequal E a b = false.
Proof.
  unfold areEqual, areDisequal, hasTerm. cbv zeta. intros [->|Hreg].
  - by rewrite !bool_decide_eq_true_2.
  - rewrite Hreg. case_bool_decide; done.
Qed.

Lemma areEqual_areDisequal_exclusive_witness :
  let E := sample.world sample.depthMode [] [] sample.emptyEngine None in
  areDisequal E sample.u sample.u = false /\
  areEqual E sample.u sample.a && areDisequal E sample.u sample.a = false.
Proof.
  split; [reflexivity|].
  apply (areEqual_areDisequal_exclusive
           (sample.world sample.depthMode [] [] sample.emptyEngine None)
           sample.u sample.a).
  right. reflexivity.
Defined.

(** X17.  [getRepresentative] applied to its own result changes nothing,
    provided the engine's representative of a registered term, when
    registered itself, is its own representative. *)
Theorem getRepresentative_idempotent (E : Env) (a : Node) :
  (forall x,
     uf.hasTerm (getEngine E) x = true ->
     uf.hasTerm (getEngine E) (uf.getRepresentative (getEngine E) x) = true ->
     uf.getRepresentative (getEngine E)
       (uf.getRepresentative (getEngine E) x) =
     uf.getRepresentative (getEngine E) x) ->
  getRepresentative E (getRepresentative E a) = getRepresentative E a.
Proof.
  intros Hfix. unfold getRepresentative. cbv zeta.
  destruct (uf.hasTerm (getEngine E) a) eqn:Ha.
  - destruct (uf.hasTerm (getEngine E) (uf.getRepresentative _ a)) eqn:Hr;
      [by apply Hfix | done].
  - by rewrite Ha.
Qed.

Lemma getRepresentative_idempotent_witness :
  let E :=
    sample.world sample.depthMode [] []
      (sample.oneClass sample.fa [sample.fa; sample.a]) None in
  getRepresentative E sample.a = sample.fa /\
  getRepresentative E (getRepresentative E sample.a) =
    getRepresentative E sample.a.
Proof.
  split; [reflexivity|].
  apply (getRepresentative_idempotent
           (sample.world sample.depthMode [] []
              (sample.oneClass sample.fa [sample.fa; sample.a]) None)
           sample.a).
  reflexivity.
Defined.

(** X18.  [getEquivalenceClass] halts exactly when the term is
    registered and is neither in the vector passed in nor among what the
    iterator yields; otherwise the result is the vector passed in followed
    by the class, so a term already in that vector is never missed. *)
Theorem getEquivalenceClass_halts_iff (E : Env) (a : Node)
    (eqc : list Node) :
  (getEquivalenceClass E a eqc = AssertionFailure <->
   (hasTerm E a = true /\ (a ∉ eqc) /\
    (a ∉ uf.EqClassIterator (getEngine E)
           (uf.getRepresentative (getEngine E) a)))) /\
  (forall members, getEquivalenceClass E a eqc = Ok members ->
     members =
       eqc ++ (if hasTerm E a
               then uf.EqClassIterator (getEngine E)
                      (uf.getRepresentative (getEngine E) a)
               else [a])).
Proof.
  unfold getEquivalenceClass, hasTerm. cbv zeta.
  destruct (uf.hasTerm (getEngine E) a).
  - case_bool_decide as Hin; simpl.
    + split; [|by intros members [= <-]].
      split; [done|]. intros (_ & H1 & H2).
      apply elem_of_app in Hin as [|]; done.
    + split; [|done]. split; [|done]. intros _.
      split; [done|]. split; intros H; apply Hin, elem_of_app; auto.
  - rewrite bool_decide_eq_true_2 by set_solver. simpl.
    split; [|by intros members [= <-]]. split; [done | by intros []].
Qed.

(** X19.  The mapping back from model values halts in one situation
    only: finite-model finding is on, the representative is a constant
    containing an uninterpreted constant, there is a model, the model has
    no term for it and its type is an uninterpreted sort.  In particular
    it never halts without a model. *)
Theorem mapFromModel_halts_iff (E : Env) (r : Node) :
  (mapFromModel E r = AssertionFailure <->
   options.finiteModelFind (opts E) = true /\
   isConst (nm E) r = true /\
   containsUninterpretedConstant (nm E) r = true /\
   (exists m, getModel (d_qe E) = Some m /\ m r = None) /\
   isSort (nm E) (getType (nm E) r) = true) /\
  (getModel (d_qe E) = None -> mapFromModel E r = Ok r).
Proof.
  unfold mapFromModel. split.
  - destruct (options.finiteModelFind (opts E));
      [|by split; [|intros []]].
    destruct (isConst (nm E) r); [|by split; [|intros (_ & ? & _)]].
    destruct (containsUninterpretedConstant (nm E) r); simpl;
      [|by split; [|intros (_ & _ & ? & _)]].
    destruct (getModel (d_qe E)) as [m|].
    + destruct (m r) as [tr|] eqn:Em.
      * split; [done|]. intros (_ & _ & _ & (m' & [= <-] & Hm') & _).
        congruence.
      * destruct (isSort (nm E) (getType (nm E) r)).
        -- split; [|done]. intros _. repeat split; eauto.
        -- split; [done | by intros (_ & _ & _ & _ & ?)].
    + split; [done|]. by intros (_ & _ & _ & (m' & ? & _) & _).
  - intros ->.
    destruct (options.finiteModelFind (opts E)); [|done].
    by destruct (isConst (nm E) r && containsUninterpretedConstant (nm E) r).
Qed.

(** ** What the modes read and write *)

(** X20.  In the mode that uses the engine's representative directly, a
    call that returns leaves the state exactly as it was, and returns the
    same term from every state: neither table is read or written. *)
Theorem getInternalRepresentative_ee_mode (E : Env) (a : Node)
    (q : option Node) (index : Z) (s s' : State) (t : Node) :
  options.quantRepMode (opts E) = options.EE ->
  getInternalRepresentative E a q index s = Ok (t, s') ->
  s' = s /\
  forall s0, getInternalRepresentative E a q index s0 = Ok (t, s0).
Proof.
  intros Hmode H.
  apply getInternalRepresentative_Ok_inv in H
    as (Hq & r & Hr & [(_ & -> & ->) | (Hne & _)]); [|done].
  split; [done|]. intros s0.
  unfold getInternalRepresentative, lookupOrSelect.
  by rewrite Hq, Hr, Hmode.
Qed.

Lemma getInternalRepresentative_ee_mode_witness :
  let E :=
    sample.world sample.eeMode [] []
      (sample.oneClass sample.fa [sample.fa; sample.a]) None in
  initial = initial /\
  forall s0, getInternalRepresentative E sample.a None 0 s0 =
             Ok (sample.fa, s0).
Proof.
  apply (getInternalRepresentative_ee_mode
           (sample.world sample.eeMode [] []
              (sample.oneClass sample.fa [sample.fa; sample.a]) None)
           sample.a None 0 initial initial sample.fa); reflexivity.
Defined.

(** Only the first-use tier reads the first-chosen table. *)
Lemma getRepScore_history (E : Env) (s s' : State) (n : Node)
    (q : option Node) (index : Z) (v_tn : TypeNode) :
  options.quantRepMode (opts E) ≠ options.FIRST \/
  options.instMaxLevel (opts E) ≠ -1 ->
  getRepScore E s n q index v_tn = getRepScore E s' n q index v_tn.
Proof.
  intros Hcond. unfold getRepScore. cbv zeta.
  destruct (_ && hasInstConstAttr _ _); [done|].
  destruct (negb (isSubtypeOf _ _ _)); [done|].
  destruct (options.lteRestrictInstClosure _ && _); [done|].
  destruct (Z.eqb_spec (options.instMaxLevel (opts E)) (-1)) as [Hl|Hl];
    simpl; [|done].
  destruct (options.quantRepMode (opts E)); try done.
  by destruct Hcond.
Qed.

(** X21.  Outside the first-use tier (depth mode, or any mode with a
    level limit) the term a call returns does not depend on the
    first-chosen table or on the generation counter: two states with the
    same cache give the same term or both halt. *)
Theorem selection_ignores_history (E : Env) (a : Node) (q : option Node)
    (index : Z) (s1 s2 : State) :
  options.quantRepMode (opts E) ≠ options.FIRST \/
  options.instMaxLevel (opts E) ≠ -1 ->
  d_int_rep s1 = d_int_rep s2 ->
  fst <$> getInternalRepresentative E a q index s1 =
  fst <$> getInternalRepresentative E a q index s2.
Proof.
  intros Hcond Hcache. unfold getInternalRepresentative.
  destruct (Assert (quantifierOk q)); [|done]. cbn [mbind Res_bind].
  destruct (mapFromModel E (getRepresentative E a)) as [r|]; [|done].
  cbn [mbind Res_bind]. unfold lookupOrSelect.
  assert (forall v_tn,
            fst <$> match default ∅ (d_int_rep (touch v_tn s1) !! v_tn) !! r with
                    | Some itir => Ok (itir, touch v_tn s1)
                    | None => findBestSelection E a q index r v_tn
                                (touch v_tn s1)
                    end =
            fst <$> match default ∅ (d_int_rep (touch v_tn s2) !! v_tn) !! r with
                    | Some itir => Ok (itir, touch v_tn s2)
                    | None => findBestSelection E a q index r v_tn
                                (touch v_tn s2)
                    end) as Hbody.
  { intros v_tn. rewrite !touch_lookup, Hcache.
    destruct (default ∅ (d_int_rep s2 !! v_tn) !! r); [done|].
    unfold findBestSelection.
    destruct (getEquivalenceClass E r []) as [eqc|]; [|done].
    cbn [mbind Res_bind].
    rewrite (selectLoop_ext
               (fun n => getRepScore E (touch v_tn s1) n q index v_tn)
               (fun n => getRepScore E (touch v_tn s2) n q index v_tn))
      by (intros n _; by apply getRepScore_history).
    destruct (selectLoop _ eqc None (-1)) as [[w ws]|]; [|done].
    cbn [mbind Res_bind].
    destruct (getInstance (default r w) eqc ∅).1 as [t|]; [|done].
    by destruct (isSubtypeOf (nm E) (getType (nm E) t) v_tn). }
  destruct (options.quantRepMode (opts E)); [done | |];
    (destruct (variableType E a q index) as [v_tn|]; [|done]);
    cbn [mbind Res_bind]; apply Hbody.
Qed.

(** Depth scoring of the class [f(a), a]: [a] comes back whether or not
    [f(a)] was chosen in an earlier round. *)
Lemma selection_ignores_history_witness :
  let E :=
    sample.world sample.depthMode [] []
      (sample.oneClass sample.fa [sample.fa; sample.a]) None in
  let s2 :=
    {| d_int_rep := ∅; d_rep_score := {[sample.fa := 0]};
       d_reset_count := 3 |} in
  fst <$> getInternalRepresentative E sample.fa None 0 initial =
    Ok sample.a /\
  fst <$> getInternalRepresentative E sample.fa None 0 initial =
  fst <$> getInternalRepresentative E sample.fa None 0 s2.
Proof.
  split; [vm_compute; reflexivity|].
  apply (selection_ignores_history
           (sample.world sample.depthMode [] []
              (sample.oneClass sample.fa [sample.fa; sample.a]) None)
           sample.fa None 0 initial
           {| d_int_rep := ∅; d_rep_score := {[sample.fa := 0]};
              d_reset_count := 3 |}).
  - left. discriminate.
  - reflexivity.
Defined.

(** X22.  In every state a session with at most [INT_MAX] resets reaches
    from the initial state, a score that [getRepScore] hands out lies in
    one of the three tiers (-2, -1, or not negative), provided recorded
    levels are at most [INT_MAX] and depths are not negative. *)
Theorem session_scores_in_tiers (calls : list Call) (s : State) (E : Env)
    (n : Node) (q : option Node) (index : Z) (v_tn : TypeNode) (z : Z) :
  countResets calls <= INT_MAX ->
  run calls initial = Ok s ->
  (forall m l, InstLevelAttribute (nm E) m = Some l -> 0 <= l <= INT_MAX) ->
  (forall m, 0 <= getTermDepth (nm E) m) ->
  getRepScore E s n q index v_tn = Ok z ->
  -2 <= z.
Proof.
  intros Hmax Hrun Hlevel Hdepth.
  destruct (run_generationsBounded calls initial s
              generationsBounded_initial Hmax Hrun) as [[_ Hgen] _].
  apply getRepScore_tiers; [done | done |].
  intros m g Hm. by apply (Hgen m g).
Qed.

(** After the sample session [a] is recorded at generation 0, which is
    its first-use score. *)
Lemma session_scores_in_tiers_witness :
  let E := sample.world sample.firstMode [] [] sample.emptyEngine None in
  let s :=
    {| d_int_rep := {[sample.INTEGER := {[sample.fa := sample.a]}]};
       d_rep_score := {[sample.a := 0]};
       d_reset_count := 2 |} in
  getRepScore E s sample.a None 0 sample.INTEGER = Ok 0 /\ -2 <= 0.
Proof.
  split; [vm_compute; reflexivity|].
  refine (session_scores_in_tiers _ _
            (sample.world sample.firstMode [] [] sample.emptyEngine None)
            sample.a None 0 sample.INTEGER 0 _ sample_session _ _ _).
  - vm_compute. discriminate.
  - intros m l H. discriminate H.
  - apply sample_depth_nonneg.
  - vm_compute. reflexivity.
Defined.
